(** * A shallow embedding of the RESP codec and the command layer of
    simple-redis (src/resp/decode.rs, src/resp/encode.rs, src/resp/mod.rs,
    src/cmd/mod.rs, src/cmd/hmap.rs, src/cmd/map.rs, src/network.rs).

    Byte buffers ([BytesMut], [&[u8]], [Vec<u8>]) are [list byte]; a Rust
    [String] is the list of its UTF-8 bytes.  [usize] values are [nat], with
    the debug-build overflow checks written out as panics.  A panic (slice
    index out of range, arithmetic overflow) is the outcome [Panic]. *)

From Stdlib Require Import Strings.Byte Strings.String.
From Stdlib Require Import List Bool Arith ZArith NArith Lia.
From Stdlib Require Import Sorting.Sorted.
Import ListNotations.

Open Scope list_scope.

(** ** Outcomes: [Result<_, RespError>] plus panics *)

Inductive RespError :=
| Incomplete
| Invalid
| InvalidFrameLength
| InvalidFrameType.
(* The [String] details of [Invalid] and [InvalidFrameType] are not kept. *)

Inductive Res (E A : Type) :=
| Ok (a : A)
| Err (e : E)
| Panic
(** [NoFuel] only marks exhaustion of the recursion bound used to embed the
    structurally recursive decoder; the bound given at the top is large
    enough for every buffer (each nested call is on a strictly shorter slice). *)
| NoFuel.
Arguments Ok {E A} a.
Arguments Err {E A} e.
Arguments Panic {E A}.
Arguments NoFuel {E A}.

Definition bind {E A B} (m : Res E A) (k : A -> Res E B) : Res E B :=
  match m with
  | Ok a => k a
  | Err e => Err e
  | Panic => Panic
  | NoFuel => NoFuel
  end.

Notation "x <- m ;; k" := (bind m (fun x => k))
  (at level 61, m at next level, right associativity).

Definition ok_or {E A} (o : option A) (e : E) : Res E A :=
  match o with Some a => Ok a | None => Err e end.

Definition map_err {E E' A} (m : Res E A) (f : E -> E') : Res E' A :=
  match m with
  | Ok a => Ok a
  | Err e => Err (f e)
  | Panic => Panic
  | NoFuel => NoFuel
  end.

(** ** Bytes, slices and [usize] arithmetic *)

Definition bv (b : byte) : N := Byte.to_N b.
Definition CR : byte := x0d.
Definition LF : byte := x0a.
Definition crlf : list byte := [CR; LF].

(** Byte string literals. *)
Definition bs (s : string) : list byte := list_byte_of_string s.

Definition byte_eqb (a b : byte) : bool := Byte.eqb a b.

Fixpoint bytes_eqb (l1 l2 : list byte) : bool :=
  match l1, l2 with
  | [], [] => true
  | a :: l1', b :: l2' => byte_eqb a b && bytes_eqb l1' l2'
  | _, _ => false
  end.

Definition usize_max : N := 18446744073709551615%N.

(** [a + b] on [usize]: panics on overflow (debug build).  Values parsed
    from the wire can be as large as [usize::MAX], so they are kept in [N]. *)
Definition usize_add {E} (a b : N) : Res E N :=
  if (usize_max <? a + b)%N then Panic else Ok (a + b)%N.

(** [a - b] on [usize]: panics on underflow (debug build). *)
Definition usize_sub {E} (a b : nat) : Res E nat :=
  if a <? b then Panic else Ok (a - b).

(** [&buf[a..b]] *)
Definition slice {E} (buf : list byte) (a b : nat) : Res E (list byte) :=
  if (a <=? b) && (b <=? length buf) then Ok (firstn (b - a) (skipn a buf))
  else Panic.

(** [&buf[a..]] *)
Definition slice_from {E} (buf : list byte) (a : nat) : Res E (list byte) :=
  if a <=? length buf then Ok (skipn a buf) else Panic.

(** ** [find_crlf] (src/resp/decode.rs)

<<
fn find_crlf(buf: &[u8], nth: usize) -> Option<usize> {
    let mut count = 0;
    for i in 0..buf.len() - 1 {
        if buf[i] == b'\r' && buf[i + 1] == b'\n' {
            count += 1;
            if count == nth { return Some(i); }
        }
    }
    None
}
>> *)

Fixpoint find_crlf_loop (buf : list byte) (i : nat) (count nth : nat) : option nat :=
  match buf with
  | a :: ((b :: _) as rest) =>
      if byte_eqb a CR && byte_eqb b LF then
        if S count =? nth then Some i
        else find_crlf_loop rest (S i) (S count) nth
      else find_crlf_loop rest (S i) count nth
  | _ => None
  end.

Definition find_crlf {E} (buf : list byte) (nth : nat) : Res E (option nat) :=
  _ <- usize_sub (length buf) 1 ;;
  Ok (find_crlf_loop buf 0 0 nth).

(** ** UTF-8: [String::from_utf8] and [String::from_utf8_lossy]

    One step of the standard library's UTF-8 chunker ([Utf8Chunks::next]):
    at the head of [l] it reads either one well-formed character
    ([(true, k)], [k] bytes) or one maximal ill-formed subsequence
    ([(false, k)]), which [from_utf8_lossy] replaces by U+FFFD.  Reads past
    the end see [0] ([safe_get]). *)

Definition safe_get (l : list byte) (i : nat) : N := bv (nth i l x00).

Definition is_cont (n : N) : bool := (128 <=? n)%N && (n <=? 191)%N.

Definition in_range (n lo hi : N) : bool := (lo <=? n)%N && (n <=? hi)%N.

Definition utf8_char_width (n : N) : nat :=
  if (n <? 128)%N then 1
  else if in_range n 194 223 then 2
  else if in_range n 224 239 then 3
  else if in_range n 240 244 then 4
  else 0.

Definition utf8_step (l : list byte) : bool * nat :=
  match l with
  | [] => (true, 0)
  | b :: _ =>
      let n := bv b in
      let c1 := safe_get l 1 in
      let c2 := safe_get l 2 in
      let c3 := safe_get l 3 in
      match utf8_char_width n with
      | 1 => (true, 1)
      | 2 => if is_cont c1 then (true, 2) else (false, 1)
      | 3 =>
          if (N.eqb n 224 && in_range c1 160 191)
             || (in_range n 225 236 && in_range c1 128 191)
             || (N.eqb n 237 && in_range c1 128 159)
             || (in_range n 238 239 && in_range c1 128 191)
          then if is_cont c2 then (true, 3) else (false, 2)
          else (false, 1)
      | 4 =>
          if (N.eqb n 240 && in_range c1 144 191)
             || (in_range n 241 243 && in_range c1 128 191)
             || (N.eqb n 244 && in_range c1 128 143)
          then if is_cont c2 then
                 if is_cont c3 then (true, 4) else (false, 3)
               else (false, 2)
          else (false, 1)
      | _ => (false, 1)
      end
  end.

(** U+FFFD REPLACEMENT CHARACTER *)
Definition replacement : list byte := [xef; xbf; xbd].

Fixpoint lossy_go (fuel : nat) (l : list byte) : list byte :=
  match fuel with
  | O => []
  | S fuel' =>
      match l with
      | [] => []
      | _ =>
          let '(valid, k) := utf8_step l in
          (if valid then firstn k l else replacement) ++ lossy_go fuel' (skipn k l)
      end
  end.

(** [String::from_utf8_lossy(l)]: every step consumes at least one byte. *)
Definition from_utf8_lossy (l : list byte) : list byte := lossy_go (length l) l.

Fixpoint valid_go (fuel : nat) (l : list byte) : bool :=
  match fuel with
  | O => true
  | S fuel' =>
      match l with
      | [] => true
      | _ => let '(valid, k) := utf8_step l in valid && valid_go fuel' (skipn k l)
      end
  end.

Definition utf8_valid (l : list byte) : bool := valid_go (length l) l.

(** ** Integer parsing: [str::parse::<i64>()] and [str::parse::<usize>()]

    [from_str_radix] with radix 10: an optional sign ([-] only for signed
    types; a lone sign is an error), then one or more ASCII digits, and the
    value must fit the type. *)

Fixpoint digits_value (l : list byte) (acc : Z) : option Z :=
  match l with
  | [] => Some acc
  | b :: l' =>
      let n := bv b in
      if in_range n 48 57 then digits_value l' (acc * 10 + Z.of_N (n - 48))%Z
      else None
  end.

Definition parse_int (signed : bool) (lo hi : Z) (s : list byte) : option Z :=
  let r :=
    match s with
    | [] => None
    | b :: rest =>
        if (byte_eqb b "+"%byte || byte_eqb b "-"%byte) && (length rest =? 0) then None
        else if byte_eqb b "+"%byte then digits_value rest 0
        else if signed && byte_eqb b "-"%byte then
          option_map Z.opp (digits_value rest 0)
        else digits_value s 0
    end in
  match r with
  | Some z => if (lo <=? z)%Z && (z <=? hi)%Z then Some z else None
  | None => None
  end.

Definition parse_i64 (s : list byte) : option Z :=
  parse_int true (- 9223372036854775808) 9223372036854775807 s.

Definition parse_usize (s : list byte) : option N :=
  option_map Z.to_N (parse_int false 0 (Z.of_N usize_max) s).

(** ** Decimal rendering: [format!("{}", n)] *)

Definition digit_byte (d : N) : byte :=
  match Byte.of_N (48 + d) with Some b => b | None => x30 end.

Fixpoint dec_go (fuel : nat) (n : N) (acc : list byte) : list byte :=
  match fuel with
  | O => acc
  | S fuel' =>
      let acc' := digit_byte (n mod 10) :: acc in
      if (n / 10 =? 0)%N then acc' else dec_go fuel' (n / 10) acc'
  end.

Definition dec_N (n : N) : list byte := dec_go (S (N.size_nat n)) n [].

Definition dec_nat (n : nat) : list byte := dec_N (N.of_nat n).

Definition dec_Z (z : Z) : list byte :=
  if (z <? 0)%Z then bs "-" ++ dec_N (Z.to_N (- z)) else dec_N (Z.to_N z).

(** ** The frame model (src/resp/mod.rs)

<<
pub enum RespFrame {
    SimpleString(SimpleString), Error(SimpleError), BulkError(BulkError),
    Integer(i64), BulkString(BulkString), NullBulkString(NullBulkString),
    Array(RespArray), NullArray(RespNullArray), Null(RespNull),
    Boolean(bool), Double(RespDouble), Map(RespMap), Set(RespSet),
}
>>
    [SimpleString], [SimpleError] and [RespDouble] wrap a [String], kept as
    its bytes; [BulkString] and [BulkError] wrap a [Vec<u8>]; [RespMap] is a
    [BTreeMap<String, RespFrame>] and [RespSet] a [BTreeSet<RespFrame>], both
    kept as their lists in iteration (ascending) order.  The variant [Set]
    is named [Set'] here, [Set] being a sort. *)

Scheme All for list.
Scheme All for prod.

Inductive Frame :=
| SimpleString (s : list byte)
| Error (s : list byte)
| BulkError (b : list byte)
| Integer (z : Z)
| BulkString (b : list byte)
| NullBulkString
| Array (l : list Frame)
| NullArray
| Null
| Boolean (b : bool)
| Double (s : list byte)
| Map (m : list (list byte * Frame))
| Set' (s : list Frame).

(** *** The derived [Ord] on [RespFrame]

    [#[derive(Ord)]] on an enum compares discriminants first, then fields;
    [Vec], [String], [BTreeMap] (as the sequence of its [(key, value)]
    pairs) and [BTreeSet] compare lexicographically; [false < true]. *)

Fixpoint lex {A} (cmp : A -> A -> comparison) (l1 l2 : list A) : comparison :=
  match l1, l2 with
  | [], [] => Eq
  | [], _ :: _ => Lt
  | _ :: _, [] => Gt
  | a :: l1', b :: l2' =>
      match cmp a b with
      | Eq => lex cmp l1' l2'
      | c => c
      end
  end.

Definition byte_cmp (a b : byte) : comparison := N.compare (bv a) (bv b).

Definition bytes_cmp : list byte -> list byte -> comparison := lex byte_cmp.

Definition bool_cmp (a b : bool) : comparison :=
  match a, b with
  | false, true => Lt
  | true, false => Gt
  | _, _ => Eq
  end.

Definition tag (f : Frame) : nat :=
  match f with
  | SimpleString _ => 0 | Error _ => 1 | BulkError _ => 2 | Integer _ => 3
  | BulkString _ => 4 | NullBulkString => 5 | Array _ => 6 | NullArray => 7
  | Null => 8 | Boolean _ => 9 | Double _ => 10 | Map _ => 11 | Set' _ => 12
  end.

Fixpoint frame_cmp (x y : Frame) : comparison :=
  match Nat.compare (tag x) (tag y) with
  | Eq =>
      match x, y with
      | SimpleString a, SimpleString b => bytes_cmp a b
      | Error a, Error b => bytes_cmp a b
      | BulkError a, BulkError b => bytes_cmp a b
      | Integer a, Integer b => Z.compare a b
      | BulkString a, BulkString b => bytes_cmp a b
      | Array a, Array b => lex frame_cmp a b
      | Boolean a, Boolean b => bool_cmp a b
      | Double a, Double b => bytes_cmp a b
      | Map a, Map b =>
          lex (fun p q => match bytes_cmp (fst p) (fst q) with
                          | Eq => frame_cmp (snd p) (snd q)
                          | c => c
                          end) a b
      | Set' a, Set' b => lex frame_cmp a b
      | _, _ => Eq
      end
  | c => c
  end.

(** [BTreeSet::insert]: an element equal to one present leaves the set as
    it is. *)
Fixpoint set_insert (x : Frame) (s : list Frame) : list Frame :=
  match s with
  | [] => [x]
  | y :: s' =>
      match frame_cmp x y with
      | Lt => x :: s
      | Eq => s
      | Gt => y :: set_insert x s'
      end
  end.

(** [BTreeMap::insert]: an existing key gets the new value. *)
Fixpoint map_insert {V} (k : list byte) (v : V) (m : list (list byte * V))
  : list (list byte * V) :=
  match m with
  | [] => [(k, v)]
  | (k', v') :: m' =>
      match bytes_cmp k k' with
      | Lt => (k, v) :: m
      | Eq => (k', v) :: m'
      | Gt => (k', v') :: map_insert k v m'
      end
  end.

(** ** Encoding (src/resp/encode.rs) *)

(** [SimpleString::encode]: [format!("+{}\r\n", self.0)] *)
Definition encode_simple_string (s : list byte) : list byte := bs "+" ++ s ++ crlf.

Fixpoint frame_encode (f : Frame) : list byte :=
  match f with
  | SimpleString s => encode_simple_string s
  | Error s => bs "-" ++ s ++ crlf
  | BulkError b =>
      (* format!("!{}\r\n{}\r\n", self.0.len(), String::from_utf8_lossy(&self.0)) *)
      bs "!" ++ dec_nat (length b) ++ crlf ++ from_utf8_lossy b ++ crlf
  | Integer z =>
      (* let sign = if *self < 0 { "" } else { "+" }; *)
      bs ":" ++ (if (z <? 0)%Z then [] else bs "+") ++ dec_Z z ++ crlf
  | BulkString b =>
      (* format!("${}\r\n{}\r\n", self.len(), String::from_utf8_lossy(self)) *)
      bs "$" ++ dec_nat (length b) ++ crlf ++ from_utf8_lossy b ++ crlf
  | NullBulkString => bs "$-1" ++ crlf
  | Array l => bs "*" ++ dec_nat (length l) ++ crlf ++ flat_map frame_encode l
  | NullArray => bs "*-1" ++ crlf
  | Null => bs "_" ++ crlf
  | Boolean b => bs "#" ++ (if b then bs "t" else bs "f") ++ crlf
  | Double s => bs "," ++ s ++ crlf
  | Map m =>
      bs "%" ++ dec_nat (length m) ++ crlf
         ++ flat_map (fun p => encode_simple_string (fst p) ++ frame_encode (snd p)) m
  | Set' s => bs "~" ++ dec_nat (length s) ++ crlf ++ flat_map frame_encode s
  end.

(** ** Decoding (src/resp/decode.rs) *)

Section Decode.

(** [String::from_utf8_lossy(data).parse::<f64>()] followed by
    [RespDouble::new], which renders the float back to text
    ([format!("{:+e}")] above [1e8], [format!("{:+}")] otherwise).  Floating
    point is not modelled: the decoder is stated for every such function. *)
Variable parse_f64_render : list byte -> option (list byte).

(** The byte at index [i] ([buf[i]]); only used where [i] is in range. *)
Definition at_ (buf : list byte) (i : nat) : byte := nth i buf x00.

Definition validate_frame_data (buf : list byte) (prefix : byte) : Res RespError unit :=
  if length buf <? 3 then Err Incomplete
  else if negb (byte_eqb (at_ buf 0) prefix) then Err InvalidFrameType
  else if negb (byte_eqb (at_ buf (length buf - 2)) CR
                && byte_eqb (at_ buf (length buf - 1)) LF) then Err Incomplete
  else Ok tt.

(** [&buf[1..buf.len() - 2]] of a validated frame. *)
Definition line_data (buf : list byte) : Res RespError (list byte) :=
  slice buf 1 (length buf - 2).

(** The [expect_length] of every one-line frame:
    [find_crlf(buf, 1).ok_or(Incomplete)? + 2]. *)
Definition line_expect_length (buf : list byte) : Res RespError nat :=
  o <- find_crlf buf 1 ;; e <- ok_or o Incomplete ;; Ok (e + 2).

(** [BulkString::expect_length], [BulkError::expect_length]:
    [find_crlf(buf, 2).ok_or(Incomplete)? + 2]. *)
Definition bulk_expect_length (buf : list byte) : Res RespError nat :=
  o <- find_crlf buf 2 ;; e <- ok_or o Incomplete ;; Ok (e + 2).

Definition simple_string_decode (buf : list byte) : Res RespError (list byte) :=
  _ <- validate_frame_data buf "+"%byte ;;
  data <- line_data buf ;;
  Ok (from_utf8_lossy data).

Definition simple_error_decode (buf : list byte) : Res RespError (list byte) :=
  _ <- validate_frame_data buf "-"%byte ;;
  data <- line_data buf ;;
  Ok (from_utf8_lossy data).

(** [parse_length]: the header of a bulk frame and the check that the
    declared length fills the frame exactly. *)
Definition parse_length (buf : list byte) : Res RespError (nat * N) :=
  o <- find_crlf buf 1 ;;
  len_end <- ok_or o Incomplete ;;
  hdr <- slice buf 1 len_end ;;
  len <- ok_or (parse_usize (from_utf8_lossy hdr)) InvalidFrameLength ;;
  t1 <- usize_add (N.of_nat len_end) 2 ;;
  t2 <- usize_add t1 len ;;
  t3 <- usize_add t2 2 ;;
  if negb (t3 =? N.of_nat (length buf))%N then Err InvalidFrameLength
  else Ok (len_end, len).

(** [BulkString::decode] and [BulkError::decode] (same body, prefix
    [$] or [!]). *)
Definition bulk_decode (prefix : byte) (buf : list byte) : Res RespError (list byte) :=
  _ <- validate_frame_data buf prefix ;;
  frame_len <- bulk_expect_length buf ;;
  head <- slice buf 0 frame_len ;;
  p <- parse_length head ;;
  let '(len_end, len) := p in
  slice buf (len_end + 2) (len_end + 2 + N.to_nat len).

Definition integer_decode (buf : list byte) : Res RespError Z :=
  _ <- validate_frame_data buf ":"%byte ;;
  data <- line_data buf ;;
  ok_or (parse_i64 (from_utf8_lossy data)) Invalid.

(** [NullBulkString::decode] (prefix [$]) and [RespNullArray::decode]
    (prefix [*]). *)
Definition null_decode_minus1 (prefix : byte) (buf : list byte) : Res RespError unit :=
  _ <- validate_frame_data buf prefix ;;
  data <- line_data buf ;;
  if bytes_eqb data (bs "-1") then Ok tt else Err Invalid.

Definition resp_null_decode (buf : list byte) : Res RespError unit :=
  _ <- validate_frame_data buf "_"%byte ;;
  if negb (length buf =? 3) then Err Invalid else Ok tt.

Definition bool_decode (buf : list byte) : Res RespError bool :=
  _ <- validate_frame_data buf "#"%byte ;;
  data <- line_data buf ;;
  if bytes_eqb data (bs "t") then Ok true
  else if bytes_eqb data (bs "f") then Ok false
  else Err Invalid.

Definition double_decode (buf : list byte) : Res RespError (list byte) :=
  _ <- validate_frame_data buf ","%byte ;;
  data <- line_data buf ;;
  ok_or (parse_f64_render (from_utf8_lossy data)) Invalid.

(** The count header of an aggregate, shared by [RespArray], [RespMap] and
    [RespSet] (decode and expect_length):
<<
let nth_len = find_crlf(buf, 1).ok_or(RespError::Incomplete)?;
let nth = String::from_utf8_lossy(&buf[1..nth_len]).parse::<usize>()
    .map_err(|_| RespError::Invalid(..))?;
>> *)
Definition read_count (buf : list byte) : Res RespError (nat * N) :=
  o <- find_crlf buf 1 ;;
  nth_len <- ok_or o Incomplete ;;
  hdr <- slice buf 1 nth_len ;;
  nth <- ok_or (parse_usize (from_utf8_lossy hdr)) Invalid ;;
  Ok (nth_len, nth).

(** [for _ in 0..nth { total += RespFrame::expect_length(&buf[total..])?; }]
    for arrays and sets; [explen] is the recursive [RespFrame::expect_length].
    Every successful child length is at least 3, so [length buf + 1] rounds
    bound the loop. *)
Definition seq_expect_length (explen : list byte -> Res RespError nat)
    (buf : list byte) (nth : N) (total : nat) : Res RespError nat :=
  (fix loop (k : nat) (n : N) (total : nat) : Res RespError nat :=
     match k with
     | O => NoFuel
     | S k' =>
         if (n =? 0)%N then Ok total
         else
           rest <- slice_from buf total ;;
           frame_len <- explen rest ;;
           loop k' (n - 1)%N (total + frame_len)
     end) (S (length buf)) nth total.

(** The loop of [RespMap::expect_length]: a key and a value per entry. *)
Definition map_expect_length (explen : list byte -> Res RespError nat)
    (buf : list byte) (nth : N) (total : nat) : Res RespError nat :=
  (fix loop (k : nat) (n : N) (total : nat) : Res RespError nat :=
     match k with
     | O => NoFuel
     | S k' =>
         if (n =? 0)%N then Ok total
         else
           rest <- slice_from buf total ;;
           key_len <- explen rest ;;
           rest' <- slice_from buf (total + key_len) ;;
           value_len <- explen rest' ;;
           loop k' (n - 1)%N (total + (key_len + value_len))
     end) (S (length buf)) nth total.

(** [RespFrame::expect_length]; [fuel] bounds the nesting depth. *)
Fixpoint expect_length (fuel : nat) (buf : list byte) : Res RespError nat :=
  match fuel with
  | O => NoFuel
  | S fuel' =>
      if length buf <? 3 then Err Incomplete
      else
        let b0 := at_ buf 0 in
        let minus1 := bytes_eqb (firstn 2 (skipn 1 buf)) (bs "-1") in
        if byte_eqb b0 "+"%byte || byte_eqb b0 "-"%byte || byte_eqb b0 ":"%byte
        then line_expect_length buf
        else if byte_eqb b0 "!"%byte then bulk_expect_length buf
        else if byte_eqb b0 "$"%byte then
          (if minus1 then line_expect_length buf else bulk_expect_length buf)
        else if byte_eqb b0 "*"%byte then
          (if minus1 then line_expect_length buf
           else
             h <- read_count buf ;;
             let '(nth_len, nth) := h in
             seq_expect_length (expect_length fuel') buf nth (nth_len + 2))
        else if byte_eqb b0 "_"%byte || byte_eqb b0 "#"%byte || byte_eqb b0 ","%byte
        then line_expect_length buf
        else if byte_eqb b0 "%"%byte then
          (h <- read_count buf ;;
           let '(nth_len, nth) := h in
           map_expect_length (expect_length fuel') buf nth (nth_len + 2))
        else if byte_eqb b0 "~"%byte then
          (h <- read_count buf ;;
           let '(nth_len, nth) := h in
           seq_expect_length (expect_length fuel') buf nth (nth_len + 2))
        else Err InvalidFrameType
  end.

(** [RespFrame::expect_length(buf)]: nested frames are on strictly shorter
    slices, so [length buf + 1] bounds the depth. *)
Definition expected_length (buf : list byte) : Res RespError nat :=
  expect_length (S (length buf)) buf.

(** The loop of [RespArray::decode] (and of [RespSet::decode]):
<<
let mut start = nth_len + 2;
for _ in 0..nth {
    let frame_len = RespFrame::expect_length(&buf[start..])?;
    let frame = RespFrame::decode(&mut BytesMut::from(&buf[start..start + frame_len]))?;
    frames.push(frame);
    start += frame_len;
}
>>
    [dec] and [explen] are the recursive [RespFrame::decode] and
    [RespFrame::expect_length]. *)
Definition decode_seq (dec : list byte -> Res RespError Frame)
    (explen : list byte -> Res RespError nat)
    (buf : list byte) (nth : N) (start : nat) : Res RespError (list Frame) :=
  (fix loop (k : nat) (n : N) (start : nat) : Res RespError (list Frame) :=
     match k with
     | O => NoFuel
     | S k' =>
         if (n =? 0)%N then Ok []
         else
           rest <- slice_from buf start ;;
           frame_len <- explen rest ;;
           piece <- slice buf start (start + frame_len) ;;
           frame <- dec piece ;;
           frames <- loop k' (n - 1)%N (start + frame_len) ;;
           Ok (frame :: frames)
     end) (S (length buf)) nth start.

(** The loop of [RespMap::decode]; the key goes through
    [SimpleString::expect_length] (a bare [find_crlf], without the length
    guard of [RespFrame::expect_length]) and [SimpleString::decode]:
<<
let key_len = SimpleString::expect_length(&buf[start..])?;
let key = SimpleString::decode(&mut BytesMut::from(&buf[start..start + key_len]))?;
let value_len = RespFrame::expect_length(&buf[start + key_len..])?;
let value = RespFrame::decode(&mut BytesMut::from(
    &buf[start + key_len..start + key_len + value_len]))?;
map.0.insert(key.0, value);
start += key_len + value_len;
>> *)
Definition map_decode_loop (dec : list byte -> Res RespError Frame)
    (explen : list byte -> Res RespError nat)
    (buf : list byte) (nth : N) (start : nat)
    : Res RespError (list (list byte * Frame)) :=
  (fix loop (k : nat) (n : N) (start : nat) (map : list (list byte * Frame))
     : Res RespError (list (list byte * Frame)) :=
     match k with
     | O => NoFuel
     | S k' =>
         if (n =? 0)%N then Ok map
         else
           rest <- slice_from buf start ;;
           key_len <- line_expect_length rest ;;
           kbuf <- slice buf start (start + key_len) ;;
           key <- simple_string_decode kbuf ;;
           rest' <- slice_from buf (start + key_len) ;;
           value_len <- explen rest' ;;
           vbuf <- slice buf (start + key_len) (start + key_len + value_len) ;;
           value <- dec vbuf ;;
           loop k' (n - 1)%N (start + (key_len + value_len)) (map_insert key value map)
     end) (S (length buf)) nth start [].

(** A [RespSet] built by inserting the frames in order into an empty
    [BTreeSet]. *)
Definition set_from_list (frames : list Frame) : list Frame :=
  fold_left (fun s f => set_insert f s) frames [].

(** [RespFrame::decode]; [fuel] bounds the nesting depth.  [RespSet::decode]
    inserts each frame as soon as it is decoded; insertion cannot fail, so
    this is [set_from_list] of the frames of [decode_seq]. *)
Fixpoint frame_decode (fuel : nat) (buf : list byte) : Res RespError Frame :=
  match fuel with
  | O => NoFuel
  | S fuel' =>
      match buf with
      | [] => Err Incomplete
      | b0 :: _ =>
          if byte_eqb b0 "+"%byte then
            s <- simple_string_decode buf ;; Ok (SimpleString s)
          else if byte_eqb b0 "-"%byte then
            s <- simple_error_decode buf ;; Ok (Error s)
          else if byte_eqb b0 "!"%byte then
            b <- bulk_decode "!"%byte buf ;; Ok (BulkError b)
          else if byte_eqb b0 ":"%byte then
            z <- integer_decode buf ;; Ok (Integer z)
          else if byte_eqb b0 "$"%byte then
            match null_decode_minus1 "$"%byte buf with
            | Ok _ => Ok NullBulkString
            | Err Incomplete => Err Incomplete
            | Panic => Panic
            | NoFuel => NoFuel
            | Err _ => b <- bulk_decode "$"%byte buf ;; Ok (BulkString b)
            end
          else if byte_eqb b0 "_"%byte then
            _ <- resp_null_decode buf ;; Ok Null
          else if byte_eqb b0 "#"%byte then
            b <- bool_decode buf ;; Ok (Boolean b)
          else if byte_eqb b0 ","%byte then
            s <- double_decode buf ;; Ok (Double s)
          else if byte_eqb b0 "*"%byte then
            match null_decode_minus1 "*"%byte buf with
            | Ok _ => Ok NullArray
            | Err Incomplete => Err Incomplete
            | Panic => Panic
            | NoFuel => NoFuel
            | Err _ =>
                _ <- validate_frame_data buf "*"%byte ;;
                h <- read_count buf ;;
                let '(nth_len, nth) := h in
                frames <- decode_seq (frame_decode fuel') (expect_length fuel')
                            buf nth (nth_len + 2) ;;
                Ok (Array frames)
            end
          else if byte_eqb b0 "%"%byte then
            _ <- validate_frame_data buf "%"%byte ;;
            h <- read_count buf ;;
            let '(nth_len, nth) := h in
            m <- map_decode_loop (frame_decode fuel') (expect_length fuel')
                   buf nth (nth_len + 2) ;;
            Ok (Map m)
          else if byte_eqb b0 "~"%byte then
            _ <- validate_frame_data buf "~"%byte ;;
            h <- read_count buf ;;
            let '(nth_len, nth) := h in
            frames <- decode_seq (frame_decode fuel') (expect_length fuel')
                        buf nth (nth_len + 2) ;;
            Ok (Set' (set_from_list frames))
          else Err InvalidFrameType
      end
  end.

(** [RespFrame::decode(buf)]. *)
Definition decode (buf : list byte) : Res RespError Frame :=
  frame_decode (S (length buf)) buf.

(** [impl Decoder for RespFrameCodec] (src/network.rs): the new state of
    [src] is returned with the result; [RespFrame::decode] never advances or
    splits [src], so it is returned as it was given.
<<
match RespFrame::decode(src) {
    Ok(frame) => Ok(Some(frame)),
    Err(RespError::Incomplete) => Ok(None),
    Err(e) => Err(e.into()),
}
>> *)
Definition codec_decode (src : list byte) : Res RespError (option Frame) * list byte :=
  (match decode src with
   | Ok f => Ok (Some f)
   | Err Incomplete => Ok None
   | Err e => Err e
   | Panic => Panic
   | NoFuel => NoFuel
   end, src).

End Decode.

(** ** Commands (src/cmd/mod.rs, src/cmd/map.rs, src/cmd/hmap.rs) *)

Inductive CommandError :=
| InvalidCommand
| InvalidArguments
| CmdRespError (e : RespError)
| Utf8Error.
(* The [String] details of [InvalidCommand] and [InvalidArguments] are not
   kept. *)

(** [enum Command { Get(Get), Set(Set), HGet(HGet), HSet(HSet), HGetAll(HGetAll) }];
    [HGetAll] carries its [sort] flag. *)
Inductive Command :=
| CmdGet (key : list byte)
| CmdSet (key : list byte) (value : Frame)
| CmdHGet (key field : list byte)
| CmdHSet (key field : list byte) (value : Frame)
| CmdHGetAll (key : list byte) (sort : bool).

(** [struct HMGet { key: String, fields: Vec<String> }] (src/cmd/hmap.rs);
    it is not a variant of [Command]. *)
Record HMGet := { hmget_key : list byte; hmget_fields : list (list byte) }.

Definition ascii_lower (b : byte) : byte :=
  if in_range (bv b) 65 90 then
    match Byte.of_N (bv b + 32) with Some c => c | None => b end
  else b.

(** [<[u8]>::to_ascii_lowercase] *)
Definition to_ascii_lowercase (l : list byte) : list byte := map ascii_lower l.

(** [String::from_utf8(v)] *)
Definition from_utf8 (v : list byte) : Res CommandError (list byte) :=
  if utf8_valid v then Ok v else Err Utf8Error.

(** [validate_command(frames, keys, n_args)]; the error message computes
    [frames.len() - keys.len()], which panics when it underflows. *)
Definition validate_command (frames : list Frame) (keys : list (list byte)) (n_args : nat)
  : Res CommandError unit :=
  if negb (length frames =? length keys + n_args) then
    _ <- usize_sub (length frames) (length keys) ;; Err InvalidArguments
  else
    (fix check (i : nat) (ks : list (list byte)) : Res CommandError unit :=
       match ks with
       | [] => Ok tt
       | key :: ks' =>
           match nth_error frames i with
           | Some (BulkString cmd) =>
               if negb (bytes_eqb (to_ascii_lowercase cmd) key) then Err InvalidCommand
               else check (S i) ks'
           | Some _ => Err InvalidCommand
           | None => Panic
           end
       end) 0 keys.

(** [extract_args(frames, start)] *)
Definition extract_args (frames : list Frame) (start : nat) : list Frame := skipn start frames.

(** [impl TryFrom<RespArray> for Get] *)
Definition get_try_from (arr : list Frame) : Res CommandError Command :=
  _ <- validate_command arr [bs "get"] 1 ;;
  if negb (length arr =? 2) then Err InvalidCommand
  else
    match extract_args arr 1 with
    | BulkString key :: _ => k <- from_utf8 key ;; Ok (CmdGet k)
    | _ => Err InvalidArguments
    end.

(** [impl TryFrom<RespArray> for Set] *)
Definition set_try_from (arr : list Frame) : Res CommandError Command :=
  _ <- validate_command arr [bs "set"] 2 ;;
  match extract_args arr 1 with
  | BulkString key :: rest =>
      k <- from_utf8 key ;;
      match rest with
      | value :: _ => Ok (CmdSet k value)
      | [] => Err InvalidArguments
      end
  | _ => Err InvalidArguments
  end.

(** [impl TryFrom<RespArray> for HGet] *)
Definition hget_try_from (arr : list Frame) : Res CommandError Command :=
  _ <- validate_command arr [bs "hget"] 2 ;;
  match extract_args arr 1 with
  | BulkString key :: rest =>
      k <- from_utf8 key ;;
      match rest with
      | BulkString field :: _ => f <- from_utf8 field ;; Ok (CmdHGet k f)
      | _ => Err InvalidArguments
      end
  | _ => Err InvalidArguments
  end.

(** [impl TryFrom<RespArray> for HSet] *)
Definition hset_try_from (arr : list Frame) : Res CommandError Command :=
  _ <- validate_command arr [bs "hset"] 3 ;;
  match extract_args arr 1 with
  | BulkString key :: rest =>
      k <- from_utf8 key ;;
      match rest with
      | BulkString field :: rest' =>
          f <- from_utf8 field ;;
          match rest' with
          | value :: _ => Ok (CmdHSet k f value)
          | [] => Err InvalidArguments
          end
      | _ => Err InvalidArguments
      end
  | _ => Err InvalidArguments
  end.

(** [impl TryFrom<RespArray> for HGetAll]: [Ok(Self { key, sort: false })] *)
Definition hgetall_try_from (arr : list Frame) : Res CommandError Command :=
  _ <- validate_command arr [bs "hgetall"] 1 ;;
  match extract_args arr 1 with
  | BulkString key :: _ => k <- from_utf8 key ;; Ok (CmdHGetAll k false)
  | _ => Err InvalidArguments
  end.

(** The field loop of [HMGet::try_from]. *)
Fixpoint hmget_fields_loop (args : list Frame) : Res CommandError (list (list byte)) :=
  match args with
  | [] => Ok []
  | BulkString field :: args' =>
      f <- from_utf8 field ;;
      fs <- hmget_fields_loop args' ;;
      Ok (f :: fs)
  | _ :: _ => Err InvalidArguments
  end.

(** [impl TryFrom<RespArray> for HMGet]:
<<
let arr_len = arr.len();
validate_command(&arr, &["hmget"], arr_len - 1)?;
>> *)
Definition hmget_try_from (arr : list Frame) : Res CommandError HMGet :=
  n <- usize_sub (length arr) 1 ;;
  _ <- validate_command arr [bs "hmget"] n ;;
  match extract_args arr 1 with
  | BulkString key :: rest =>
      k <- from_utf8 key ;;
      fs <- hmget_fields_loop rest ;;
      Ok {| hmget_key := k; hmget_fields := fs |}
  | _ => Err InvalidArguments
  end.

(** [impl TryFrom<RespArray> for Command]: the verb is matched byte for
    byte against [b"get"], [b"set"], [b"hget"], [b"hset"], [b"hgetall"]. *)
Definition command_try_from_array (arr : list Frame) : Res CommandError Command :=
  match arr with
  | BulkString cmd :: _ =>
      if bytes_eqb cmd (bs "get") then get_try_from arr
      else if bytes_eqb cmd (bs "set") then set_try_from arr
      else if bytes_eqb cmd (bs "hget") then hget_try_from arr
      else if bytes_eqb cmd (bs "hset") then hset_try_from arr
      else if bytes_eqb cmd (bs "hgetall") then hgetall_try_from arr
      else Err InvalidCommand
  | _ => Err InvalidCommand
  end.

(** [impl TryFrom<RespFrame> for Command] *)
Definition command_try_from (f : Frame) : Res CommandError Command :=
  match f with
  | Array arr => command_try_from_array arr
  | _ => Err InvalidCommand
  end.

(** ** The backend *)

(** Lookup in a key-ordered association list. *)
Fixpoint assoc_lookup {V} (k : list byte) (m : list (list byte * V)) : option V :=
  match m with
  | [] => None
  | (k', v) :: m' => if bytes_eqb k k' then Some v else assoc_lookup k m'
  end.

(** Modelled from the spec: [Backend] (its module is not among the sources;
    only its callers are).  Spec §3.3 and §4.6: a string-keyed table of
    frames for GET/SET and a string-keyed table of "(field -> Frame) ordered
    mapping"s for HSET/HGET/HGETALL; a key is created on first write and
    never destroyed; [set] and [hset] insert or replace; [hgetall] returns the
    entries "in deterministic order (sorted by field)".  The ordered mappings
    are key-ordered lists updated with [map_insert]. *)
Record Backend := {
  bk_map : list (list byte * Frame);
  bk_hmap : list (list byte * list (list byte * Frame))
}.

(** Modelled from the spec: [Backend::new()], all tables empty. *)
Definition backend_new : Backend := {| bk_map := []; bk_hmap := [] |}.

(** Modelled from the spec: [Backend::get(key)]. *)
Definition backend_get (be : Backend) (key : list byte) : option Frame :=
  assoc_lookup key (bk_map be).

(** Modelled from the spec: [Backend::set(key, value)]. *)
Definition backend_set (be : Backend) (key : list byte) (value : Frame) : Backend :=
  {| bk_map := map_insert key value (bk_map be); bk_hmap := bk_hmap be |}.

(** Modelled from the spec: [Backend::hget(key, field)]. *)
Definition backend_hget (be : Backend) (key field : list byte) : option Frame :=
  match assoc_lookup key (bk_hmap be) with
  | Some table => assoc_lookup field table
  | None => None
  end.

(** Modelled from the spec: [Backend::hset(key, field, value)]. *)
Definition backend_hset (be : Backend) (key field : list byte) (value : Frame) : Backend :=
  let table := match assoc_lookup key (bk_hmap be) with Some t => t | None => [] end in
  {| bk_map := bk_map be;
     bk_hmap := map_insert key (map_insert field value table) (bk_hmap be) |}.

(** Modelled from the spec: [Backend::hgetall(key)], the entries of the
    key's table in field order. *)
Definition backend_hgetall (be : Backend) (key : list byte) : option (list (list byte * Frame)) :=
  assoc_lookup key (bk_hmap be).

(** ** Executing commands *)

(** [RESP_OK]: [SimpleString::new("OK")] *)
Definition resp_ok : Frame := SimpleString (bs "OK").

(** [data.sort_by(|a, b| a.0.cmp(&b.0))]: a stable sort on the field. *)
Fixpoint insert_by_key {V} (p : list byte * V) (l : list (list byte * V)) :=
  match l with
  | [] => [p]
  | q :: l' =>
      match bytes_cmp (fst p) (fst q) with
      | Gt => q :: insert_by_key p l'
      | _ => p :: l
      end
  end.

Definition sort_by_key {V} (l : list (list byte * V)) : list (list byte * V) :=
  fold_right insert_by_key [] l.

(** [CommandExecutor::execute]; the backend is passed and returned. *)
Definition execute (cmd : Command) (be : Backend) : Frame * Backend :=
  match cmd with
  | CmdGet key =>
      (match backend_get be key with Some v => v | None => Null end, be)
  | CmdSet key value => (resp_ok, backend_set be key value)
  | CmdHGet key field =>
      (match backend_hget be key field with Some v => v | None => Null end, be)
  | CmdHSet key field value => (resp_ok, backend_hset be key field value)
  | CmdHGetAll key sort =>
      match backend_hgetall be key with
      | Some value =>
          let data := value in
          let data := if sort then sort_by_key data else data in
          (Array (flat_map (fun p => [BulkString (fst p); snd p]) data), be)
      | None => (Null, be)
      end
  end.

(** ** The connection loop (src/network.rs) *)

(** What [frames.next().await] yields, one element per call:
    [Some(Ok(frame))] or [Some(Err(e))]; the end of the list is [None].
    The list is the sequence of yields, not of frames received: since
    [RespFrameCodec::decode] never consumes its buffer, the real stream
    yields the first decoded frame again on every call. *)
Inductive StreamItem :=
| Item (f : Frame)
| ItemErr (e : RespError).

Inductive ConnResult :=
| ConnOk
| ConnDecodeErr (e : RespError)
| ConnCmdErr (e : CommandError)
| ConnPanic.

(** [frame_handler]: [let cmd = Command::try_from(frame)?; Ok(cmd.execute(backend))] *)
Definition frame_handler (f : Frame) (be : Backend) : Res CommandError (Frame * Backend) :=
  cmd <- command_try_from f ;; Ok (execute cmd be).

(** [process_stream]: the frames written back, in order, and how the loop
    ends.  [frames.send(frame).await?] is taken to succeed. *)
Fixpoint process_stream (items : list StreamItem) (be : Backend) : list Frame * ConnResult :=
  match items with
  | [] => ([], ConnOk)
  | ItemErr e :: _ => ([], ConnDecodeErr e)
  | Item f :: rest =>
      match frame_handler f be with
      | Ok (resp, be') => let '(out, r) := process_stream rest be' in (resp :: out, r)
      | Err e => ([], ConnCmdErr e)
      | Panic | NoFuel => ([], ConnPanic)
      end
  end.

(** Executing commands one after the other from a backend. *)
Definition run_cmds (cmds : list Command) (be : Backend) : Backend :=
  fold_left (fun b c => snd (execute c b)) cmds be.

Definition bulk_array (ws : list string) : Frame := Array (map (fun w => BulkString (bs w)) ws).

(** ** Auxiliary definitions *)

(** The indices [i] with [buf[i] == b'\r' && buf[i + 1] == b'\n'], in
    increasing order, each shifted by [i0]. *)
Fixpoint crlf_positions (buf : list byte) (i0 : nat) : list nat :=
  match buf with
  | a :: ((b :: _) as rest) =>
      if byte_eqb a CR && byte_eqb b LF then i0 :: crlf_positions rest (S i0)
      else crlf_positions rest (S i0)
  | _ => []
  end.

(** [buf] holds the two bytes [\r\n] at index [i]. *)
Definition crlf_at (buf : list byte) (i : nat) : Prop :=
  nth_error buf i = Some CR /\ nth_error buf (S i) = Some LF.

(** The strict order of the derived [Ord] on [RespFrame]. *)
Definition frame_lt (x y : Frame) : Prop := frame_cmp x y = Lt.

(** The strict order on the keys of a key-ordered table. *)
Definition key_lt {V} (p q : list byte * V) : Prop := bytes_cmp (fst p) (fst q) = Lt.

(** Every backend built by running commands keeps its hash tables sorted by
    key, each table sorted by field and non-empty. *)
Definition hash_tables_ok (be : Backend) : Prop :=
  Sorted key_lt (bk_hmap be) /\
  Forall (fun p => snd p <> [] /\ Sorted key_lt (snd p)) (bk_hmap be).

(** The reply of [HGETALL]: each field as a bulk string, then its value. *)
Definition hash_entries (data : list (list byte * Frame)) : list Frame :=
  flat_map (fun p => [BulkString (fst p); snd p]) data.

(** A set declaring three elements, two of them equal. *)
Definition set_dup_wire : list byte :=
  bs "~3" ++ crlf ++ bs ":1" ++ crlf ++ bs ":1" ++ crlf ++ bs "#f" ++ crlf.

(** The hash scenario of the spec, as commands. *)
Definition hash_scenario : list Command :=
  [CmdHSet (bs "map") (bs "hello") (BulkString (bs "world"));
   CmdHSet (bs "map") (bs "hello1") (BulkString (bs "world1"))].

(** A decimal digit byte, [b'0'..=b'9']. *)
Definition is_digit (b : byte) : Prop := (48 <= bv b <= 57)%N.

(** The bounds of [i64]. *)
Definition i64_min : Z := (- 9223372036854775808)%Z.
Definition i64_max : Z := 9223372036854775807%Z.

(** The text [Integer::encode] writes between [:] and CRLF. *)
Definition int_text (z : Z) : list byte := (if (z <? 0)%Z then [] else bs "+") ++ dec_Z z.

(** [b] holds no CRLF pair. *)
Definition no_crlf (b : list byte) : Prop := forall i, ~ crlf_at b i.

(** A bulk payload that survives the round trip: valid UTF-8, no CRLF. *)
Definition bulk_ok (b : list byte) : Prop := utf8_valid b = true /\ no_crlf b.

(** The prefix bytes [RespFrame::decode] dispatches on. *)
Definition resp_prefixes : list byte := bs "+-!:$_#,*%~".

(** The verbs of [Command::try_from] with their number of arguments. *)
Definition command_arity : list (string * nat) :=
  [("get", 1); ("set", 2); ("hget", 2); ("hset", 3); ("hgetall", 1)]%string.

(** The replies of executing [cmds] in turn on the backend. *)
Fixpoint replies (cmds : list Command) (be : Backend) : list Frame :=
  match cmds with
  | [] => []
  | c :: cs => let '(r, be') := execute c be in r :: replies cs be'
  end.

(** ** Properties *)

(** *** Concrete runs of the codec *)

(** C1: [BulkString] round trip.  The payload [0xFF] is not UTF-8: the
    encoder writes the length of the original payload (1) followed by the
    three bytes of U+FFFD, and decoding that encoding fails with
    [InvalidFrameLength] instead of giving back [BulkString [0xFF]]. *)
Theorem C1_bulk_string_non_utf8_roundtrip_fails : forall f64r,
  frame_encode (BulkString [xff]) = bs "$1" ++ crlf ++ [xef; xbf; xbd] ++ crlf /\
  decode f64r (frame_encode (BulkString [xff])) = Err InvalidFrameLength.
Proof. intros f64r. split; reflexivity. Qed.

(** C2: a successful decode does not remove the frame's bytes.  On
    [+OK\r\n+PONG\r\n] the codec's decoder returns one [SimpleString] that
    swallows the second frame ([OK\r\n+PONG]) and the buffer is left
    exactly as it was, so nothing is consumed. *)
Theorem C2_decode_consumes_nothing : forall f64r,
  codec_decode f64r (bs "+OK" ++ crlf ++ bs "+PONG" ++ crlf)
  = (Ok (Some (SimpleString (bs "OK" ++ crlf ++ bs "+PONG"))),
     bs "+OK" ++ crlf ++ bs "+PONG" ++ crlf) /\
  codec_decode f64r (bs "+OK" ++ crlf) = (Ok (Some (SimpleString (bs "OK"))), bs "+OK" ++ crlf).
Proof. intros f64r. split; reflexivity. Qed.

(** C3: the length oracle on the encoding of [BulkString "a\r\nb"]: the
    encoding is 10 bytes long, but [expect_length] stops at the second CRLF,
    which is inside the payload, and answers 7. *)
Theorem C3_expected_length_bulk_with_crlf :
  length (frame_encode (BulkString (bs "a" ++ crlf ++ bs "b"))) = 10 /\
  expected_length (frame_encode (BulkString (bs "a" ++ crlf ++ bs "b"))) = Ok 7.
Proof. split; reflexivity. Qed.

(** C4: [%1\r\n] is a strict prefix of the encoding of the map
    [{"a": 1}], and decoding it panics: the map loop calls
    [SimpleString::expect_length] on the empty rest of the buffer and
    [find_crlf] computes [0 - 1] on [usize]. *)
Theorem C4_map_prefix_panics : forall f64r,
  frame_encode (Map [(bs "a", Integer 1)]) = (bs "%1" ++ crlf) ++ bs "+a" ++ crlf ++ bs ":+1" ++ crlf /\
  decode f64r (bs "%1" ++ crlf) = Panic.
Proof. intros f64r. split; reflexivity. Qed.

(** C8: [find_crlf] on the empty buffer panics ([buf.len() - 1] underflows);
    on a one-byte buffer it returns [None]. *)
Theorem C8_find_crlf_empty_panics :
  find_crlf (E := RespError) [] 1 = Panic /\
  find_crlf (E := RespError) [CR] 1 = Ok None.
Proof. split; reflexivity. Qed.

(** *** Concrete runs of the command layer *)

(** C6: the verb is compared byte for byte with lower-case names: [GET] is
    an [InvalidCommand] where [get] parses, and [echo], [hmget], [sadd],
    [sismember] are not commands. *)
Theorem C6_verb_case_sensitive_and_missing :
  command_try_from (bulk_array (["GET"; "hello"])%string) = Err InvalidCommand /\
  command_try_from (bulk_array (["get"; "hello"])%string) = Ok (CmdGet (bs "hello")) /\
  command_try_from (bulk_array (["echo"; "hello"])%string) = Err InvalidCommand /\
  command_try_from (bulk_array (["hmget"; "map"; "hello"])%string) = Err InvalidCommand /\
  command_try_from (bulk_array (["sadd"; "s"; "m"])%string) = Err InvalidCommand /\
  command_try_from (bulk_array (["sismember"; "s"; "m"])%string) = Err InvalidCommand.
Proof. repeat split; reflexivity. Qed.

(** C5: an unknown verb ends the connection: nothing is written back for it
    and the following [SET] is never run. *)
Theorem C5_unknown_command_closes :
  process_stream [Item (bulk_array (["ping"])%string);
                  Item (bulk_array (["set"; "k"; "v"])%string)] backend_new
  = ([], ConnCmdErr InvalidCommand) /\
  process_stream [Item (bulk_array (["get"])%string);
                  Item (bulk_array (["set"; "k"; "v"])%string)] backend_new
  = ([], ConnCmdErr InvalidArguments).
Proof. split; reflexivity. Qed.

(** C9: [HMGet::try_from] accepts [hmget map] with no field. *)
Theorem C9_hmget_zero_fields_accepted :
  hmget_try_from [BulkString (bs "hmget"); BulkString (bs "map")]
  = Ok {| hmget_key := bs "map"; hmget_fields := [] |}.
Proof. reflexivity. Qed.

(** *** Lexicographic comparison *)

Section Lex.
Context {A : Type} (cmp : A -> A -> comparison).

Lemma lex_refl : forall l, (forall a, In a l -> cmp a a = Eq) -> lex cmp l l = Eq.
Proof.
  induction l as [|a l IH]; intros H; simpl; [reflexivity|].
  rewrite (H a (or_introl eq_refl)). apply IH. intros x Hx. apply H. right. exact Hx.
Qed.

Lemma lex_eq_inv : forall l1,
  (forall a, In a l1 -> forall b, cmp a b = Eq -> a = b) ->
  forall l2, lex cmp l1 l2 = Eq -> l1 = l2.
Proof.
  induction l1 as [|a l1 IH]; intros H [|b l2]; simpl; try discriminate; auto.
  destruct (cmp a b) eqn:E; try discriminate. intros Hl.
  f_equal.
  - exact (H a (or_introl eq_refl) b E).
  - apply IH; [|exact Hl]. intros x Hx. apply H. right. exact Hx.
Qed.

Lemma lex_antisym : forall l1,
  (forall a, In a l1 -> forall b, cmp b a = CompOpp (cmp a b)) ->
  forall l2, lex cmp l2 l1 = CompOpp (lex cmp l1 l2).
Proof.
  induction l1 as [|a l1 IH]; intros H [|b l2]; simpl; try reflexivity.
  rewrite (H a (or_introl eq_refl) b).
  destruct (cmp a b); simpl; try reflexivity.
  apply IH. intros x Hx. apply H. right. exact Hx.
Qed.

Lemma lex_trans :
  (forall x y, cmp x y = Eq -> x = y) ->
  forall l1,
  (forall a, In a l1 -> forall b c, cmp a b = Lt -> cmp b c = Lt -> cmp a c = Lt) ->
  forall l2 l3, lex cmp l1 l2 = Lt -> lex cmp l2 l3 = Lt -> lex cmp l1 l3 = Lt.
Proof.
  intros Heq. induction l1 as [|a l1 IH]; intros H [|b l2] [|c l3]; simpl;
    intros H1 H2; try discriminate; try reflexivity.
  destruct (cmp a b) eqn:E1; try discriminate;
  destruct (cmp b c) eqn:E2; try discriminate.
  - pose proof (Heq _ _ E1) as <-. pose proof (Heq _ _ E2) as <-.
    rewrite E1. apply (IH (fun x Hx => H x (or_intror Hx)) l2 l3 H1 H2).
  - pose proof (Heq _ _ E1) as <-. rewrite E2. reflexivity.
  - pose proof (Heq _ _ E2) as <-. rewrite E1. reflexivity.
  - rewrite (H a (or_introl eq_refl) b c E1 E2). reflexivity.
Qed.

End Lex.

(** *** Bytes and byte strings *)

Lemma byte_cmp_eq : forall a b, byte_cmp a b = Eq -> a = b.
Proof.
  intros a b H. unfold byte_cmp, bv in H. apply N.compare_eq in H.
  pose proof (Byte.of_to_N a) as Ha. pose proof (Byte.of_to_N b) as Hb.
  rewrite H in Ha. congruence.
Qed.

Lemma byte_cmp_antisym : forall a b, byte_cmp b a = CompOpp (byte_cmp a b).
Proof. intros a b. unfold byte_cmp. apply N.compare_antisym. Qed.

Lemma byte_cmp_trans : forall a b c, byte_cmp a b = Lt -> byte_cmp b c = Lt -> byte_cmp a c = Lt.
Proof.
  unfold byte_cmp. intros a b c H1 H2.
  apply N.compare_lt_iff in H1, H2. apply N.compare_lt_iff. eapply N.lt_trans; eassumption.
Qed.

Lemma bytes_cmp_eq : forall a b, bytes_cmp a b = Eq -> a = b.
Proof. intros a. apply lex_eq_inv. intros x _ y. apply byte_cmp_eq. Qed.

Lemma bytes_cmp_antisym : forall a b, bytes_cmp b a = CompOpp (bytes_cmp a b).
Proof. intros a. apply lex_antisym. intros x _ y. apply byte_cmp_antisym. Qed.

Lemma bytes_cmp_refl : forall a, bytes_cmp a a = Eq.
Proof.
  intros a. pose proof (bytes_cmp_antisym a a) as H.
  destruct (bytes_cmp a a); simpl in H; congruence.
Qed.

Lemma bytes_cmp_trans : forall a b c, bytes_cmp a b = Lt -> bytes_cmp b c = Lt -> bytes_cmp a c = Lt.
Proof.
  intros a. apply lex_trans; [exact byte_cmp_eq|]. intros x _. apply byte_cmp_trans.
Qed.

Lemma byte_eqb_eq : forall a b, byte_eqb a b = true <-> a = b.
Proof.
  intros a b. unfold byte_eqb. split; [apply Byte.byte_dec_bl | apply Byte.byte_dec_lb].
Qed.

Lemma bytes_eqb_eq : forall a b, bytes_eqb a b = true <-> a = b.
Proof.
  induction a as [|x a IH]; intros [|y b]; simpl; split; intros H;
    try discriminate; try reflexivity.
  - apply andb_prop in H as [H1 H2]. apply byte_eqb_eq in H1. apply IH in H2. subst. reflexivity.
  - injection H as <- <-. apply andb_true_intro. split; [apply byte_eqb_eq | apply IH]; reflexivity.
Qed.

(** *** The frame order is a total order *)

Lemma list_all_In {A} (P : A -> Prop) (l : list A) :
  list_all@{Prop ; _ _} A P l -> forall x, In x l -> P x.
Proof.
  induction 1 as [|a Ha l _ IH]; simpl; intros x Hx; [contradiction|].
  destruct Hx as [<-|Hx]; [exact Ha | exact (IH x Hx)].
Qed.

Lemma map_all_In (P : Frame -> Prop) (m : list (list byte * Frame)) :
  list_all@{Type ; Set Set} _ (prod_all@{Type Prop ; Set Set Set Set} _ (fun _ => unit) Frame P) m -> forall p, In p m -> P (snd p).
Proof.
  induction 1 as [|[k v] Hkv m _ IH]; simpl; intros p Hp; [contradiction|].
  destruct Hp as [<-|Hp]; [|exact (IH p Hp)].
  inversion Hkv. assumption.
Qed.

Lemma frame_cmp_eq : forall x y, frame_cmp x y = Eq -> x = y.
Proof.
  induction x as [s|s|s|z|s| |l IH| | |b|s|m IH|l IH] using Frame_ind;
    intros [t|t|t|w|t| |l'| | |c|t|m'|l']; simpl; intros H;
    try discriminate; try reflexivity; f_equal;
    try (apply bytes_cmp_eq; exact H).
  - apply Z.compare_eq. exact H.
  - apply lex_eq_inv with (cmp := frame_cmp); [|exact H].
    intros a Ha. exact (list_all_In _ l IH a Ha).
  - destruct b, c; simpl in H; congruence.
  - apply lex_eq_inv with (2 := H).
    intros [k v] Hp [k' v'] Hc. simpl in Hc.
    destruct (bytes_cmp k k') eqn:Ek; try discriminate.
    apply bytes_cmp_eq in Ek. subst k'. f_equal.
    exact (map_all_In _ m IH (k, v) Hp v' Hc).
  - apply lex_eq_inv with (cmp := frame_cmp); [|exact H].
    intros a Ha. exact (list_all_In _ l IH a Ha).
Qed.

Lemma frame_cmp_antisym : forall x y, frame_cmp y x = CompOpp (frame_cmp x y).
Proof.
  induction x as [s|s|s|z|s| |l IH| | |b|s|m IH|l IH] using Frame_ind;
    intros [t|t|t|w|t| |l'| | |c|t|m'|l']; simpl; try reflexivity;
    try apply bytes_cmp_antisym.
  - apply Z.compare_antisym.
  - apply lex_antisym. intros a Ha. exact (list_all_In _ l IH a Ha).
  - destruct b, c; reflexivity.
  - apply lex_antisym. intros [k v] Hp [k' v']. simpl.
    rewrite (bytes_cmp_antisym k k').
    destruct (bytes_cmp k k'); simpl; try reflexivity.
    exact (map_all_In _ m IH (k, v) Hp v').
  - apply lex_antisym. intros a Ha. exact (list_all_In _ l IH a Ha).
Qed.

Lemma frame_cmp_refl : forall x, frame_cmp x x = Eq.
Proof.
  intros x. pose proof (frame_cmp_antisym x x) as H.
  destruct (frame_cmp x x); simpl in H; congruence.
Qed.

Lemma frame_cmp_tag_neq : forall x y,
  Nat.compare (tag x) (tag y) <> Eq -> frame_cmp x y = Nat.compare (tag x) (tag y).
Proof.
  intros [] []; simpl; intros H; try reflexivity; contradiction H; reflexivity.
Qed.

Lemma frame_cmp_lt_tag : forall x y, frame_cmp x y = Lt -> tag x <= tag y.
Proof.
  intros x y H. destruct (Nat.compare (tag x) (tag y)) eqn:E.
  - apply Nat.compare_eq in E. lia.
  - apply Nat.compare_lt_iff in E. lia.
  - rewrite frame_cmp_tag_neq in H by congruence. congruence.
Qed.

Lemma frame_cmp_trans_tag : forall x y z,
  frame_cmp x y = Lt -> frame_cmp y z = Lt -> tag x <> tag z -> frame_cmp x z = Lt.
Proof.
  intros x y z H1 H2 T.
  pose proof (frame_cmp_lt_tag _ _ H1) as T1. pose proof (frame_cmp_lt_tag _ _ H2) as T2.
  assert (L : Nat.compare (tag x) (tag z) = Lt) by (apply Nat.compare_lt_iff; lia).
  rewrite frame_cmp_tag_neq; rewrite L; congruence.
Qed.

Lemma frame_cmp_trans : forall x y z,
  frame_cmp x y = Lt -> frame_cmp y z = Lt -> frame_cmp x z = Lt.
Proof.
  induction x as [s|s|s|z|s| |l IH| | |b|s|m IH|l IH] using Frame_ind;
    intros y zz H1 H2;
    match type of H1 with frame_cmp ?x _ = Lt =>
      destruct (Nat.eq_dec (tag x) (tag zz)) as [T|T];
      [|exact (frame_cmp_trans_tag x y zz H1 H2 T)] end;
    pose proof (frame_cmp_lt_tag _ _ H1) as T1;
    pose proof (frame_cmp_lt_tag _ _ H2) as T2;
    destruct y as [t|t|t|w|t| |l'| | |c|t|m'|l']; simpl in T1; try (exfalso; lia);
    destruct zz as [u|u|u|v|u| |l''| | |d|u|m''|l'']; simpl in *; try (exfalso; lia);
    try discriminate; try (eapply bytes_cmp_trans; eassumption).
  - rewrite Z.compare_lt_iff in *. lia.
  - eapply lex_trans; [exact frame_cmp_eq| |exact H1|exact H2].
    intros a Ha. exact (list_all_In _ l IH a Ha).
  - destruct b, c, d; simpl in *; congruence.
  - eapply lex_trans; [| |exact H1|exact H2].
    + intros [k v] [k' v'] Hc. simpl in Hc.
      destruct (bytes_cmp k k') eqn:Ek; try discriminate.
      apply bytes_cmp_eq in Ek. apply frame_cmp_eq in Hc. congruence.
    + intros [k v] Hp [k' v'] [k'' v''] Hc1 Hc2. simpl in *.
      destruct (bytes_cmp k k') eqn:E1; try discriminate;
      destruct (bytes_cmp k' k'') eqn:E2; try discriminate.
      * apply bytes_cmp_eq in E1, E2. subst k' k''. rewrite bytes_cmp_refl.
        exact (map_all_In _ m IH (k, v) Hp v' v'' Hc1 Hc2).
      * apply bytes_cmp_eq in E1. subst k'. rewrite E2. reflexivity.
      * apply bytes_cmp_eq in E2. subst k''. rewrite E1. reflexivity.
      * rewrite (bytes_cmp_trans _ _ _ E1 E2). reflexivity.
  - eapply lex_trans; [exact frame_cmp_eq| |exact H1|exact H2].
    intros a Ha. exact (list_all_In _ l IH a Ha).
Qed.

(** *** [BTreeSet] insertion keeps the set sorted and duplicate-free *)

Lemma frame_lt_trans : forall x y z, frame_lt x y -> frame_lt y z -> frame_lt x z.
Proof. unfold frame_lt. exact frame_cmp_trans. Qed.

Lemma frame_lt_irrefl : forall x, ~ frame_lt x x.
Proof. unfold frame_lt. intros x H. rewrite frame_cmp_refl in H. discriminate. Qed.

Lemma frame_cmp_gt_lt : forall x y, frame_cmp x y = Gt -> frame_lt y x.
Proof. unfold frame_lt. intros x y H. rewrite frame_cmp_antisym, H. reflexivity. Qed.

Lemma set_insert_hdrel : forall a x s,
  HdRel frame_lt a s -> frame_lt a x -> HdRel frame_lt a (set_insert x s).
Proof.
  intros a x [|y s] H Hx; simpl; [constructor; exact Hx|].
  destruct (frame_cmp x y); [exact H|constructor; exact Hx|].
  inversion H; subst. constructor. assumption.
Qed.

Lemma set_insert_sorted : forall x s,
  Sorted frame_lt s -> Sorted frame_lt (set_insert x s).
Proof.
  intros x s. induction s as [|y s IH]; intros H; simpl.
  - repeat constructor.
  - destruct (frame_cmp x y) eqn:E.
    + exact H.
    + constructor; [exact H|constructor; exact E].
    + apply Sorted_inv in H as [Hs Hh]. constructor; [exact (IH Hs)|].
      apply set_insert_hdrel; [exact Hh|]. apply frame_cmp_gt_lt. exact E.
Qed.

Lemma set_insert_In : forall x s y, In y (set_insert x s) <-> x = y \/ In y s.
Proof.
  intros x s y. induction s as [|z s IH]; simpl; [tauto|].
  destruct (frame_cmp x z) eqn:E; simpl.
  - apply frame_cmp_eq in E. subst z. tauto.
  - tauto.
  - rewrite IH. tauto.
Qed.

Lemma set_fold_sorted : forall l acc,
  Sorted frame_lt acc ->
  Sorted frame_lt (fold_left (fun s f => set_insert f s) l acc).
Proof.
  induction l as [|x l IH]; simpl; intros acc H; [exact H|].
  apply IH. apply set_insert_sorted. exact H.
Qed.

Lemma set_fold_In : forall l acc y,
  In y (fold_left (fun s f => set_insert f s) l acc) <-> In y acc \/ In y l.
Proof.
  induction l as [|x l IH]; simpl; intros acc y; [tauto|].
  rewrite IH, set_insert_In. tauto.
Qed.

Lemma StronglySorted_frame_lt_NoDup : forall l, StronglySorted frame_lt l -> NoDup l.
Proof.
  induction l as [|x l IH]; intros H; [constructor|].
  apply StronglySorted_inv in H as [Hs Hf]. constructor; [|exact (IH Hs)].
  intros Hx. rewrite Forall_forall in Hf. exact (frame_lt_irrefl x (Hf x Hx)).
Qed.

Lemma set_from_list_sorted : forall l, StronglySorted frame_lt (set_from_list l).
Proof.
  intros l. apply Sorted_StronglySorted; [exact frame_lt_trans|].
  apply set_fold_sorted. constructor.
Qed.

Lemma set_from_list_In : forall l y, In y (set_from_list l) <-> In y l.
Proof. intros l y. unfold set_from_list. rewrite set_fold_In. simpl. tauto. Qed.

Lemma set_from_list_shrinks : forall l,
  ~ NoDup l -> length (set_from_list l) < length l.
Proof.
  intros l Hl.
  pose proof (StronglySorted_frame_lt_NoDup _ (set_from_list_sorted l)) as Hs.
  destruct (Nat.lt_ge_cases (length (set_from_list l)) (length l)) as [Lt'|Ge];
    [exact Lt'|].
  exfalso. apply Hl. eapply NoDup_incl_NoDup; [exact Hs|exact Ge|].
  intros y Hy. apply set_from_list_In. exact Hy.
Qed.

(** *** Inverting the decoder *)

Lemma bind_ok_k {E A B} (m : Res E A) (k : A -> Res E B) v :
  bind m k = Ok v -> exists a, m = Ok a /\ k a = Ok v.
Proof. destruct m; simpl; try discriminate. eauto. Qed.

Ltac bind_kill H :=
  repeat match type of H with
  | bind ?m ?k = Ok _ =>
      let a := fresh "a" in let Ha := fresh "Ha" in
      apply bind_ok_k in H; destruct H as (a & Ha & H); cbv beta in H
  | (let '(_, _) := ?p in _) = _ => destruct p
  end.

Lemma decode_seq_length : forall dec explen buf nth start es,
  decode_seq dec explen buf nth start = Ok es -> length es = N.to_nat nth.
Proof.
  intros dec explen buf nth start es. cbv delta [decode_seq] beta.
  generalize (S (length buf)) as k. intros k. revert nth start es.
  induction k as [|k IH]; intros nth start es H; cbn beta iota in H;
    [discriminate|]. destruct (N.eqb_spec nth 0) as [->|Hn].
  - injection H as <-. reflexivity.
  - bind_kill H. injection H as <-. simpl. rewrite (IH _ _ _ Ha3). lia.
Qed.

Lemma decode_set_inv : forall f64r buf s,
  decode f64r buf = Ok (Set' s) ->
  exists nth_len nth es,
    read_count buf = Ok (nth_len, nth) /\
    decode_seq (frame_decode f64r (length buf)) (expect_length (length buf))
      buf nth (nth_len + 2) = Ok es /\
    s = set_from_list es.
Proof.
  intros f64r buf s H. unfold decode in H.
  remember (length buf) as n eqn:En.
  destruct buf as [|b0 rest]; [discriminate|].
  cbn [frame_decode] in H.
  repeat match type of H with
  | (if ?c then _ else _) = _ => destruct c
  | (match ?m with Ok _ => _ | Err _ => _ | Panic => _ | NoFuel => _ end) = _ =>
      destruct m as [?|[]| |]
  end; try discriminate; bind_kill H; try discriminate.
  injection H as <-. subst n. do 3 eexists.
  split; [eassumption|]. split; [eassumption|reflexivity].
Qed.

(** ** Decoded sets *)

(** C10: whenever [RespFrame::decode] returns a [RespSet], its elements are
    strictly increasing in the derived [Ord] of [RespFrame] (hence free of
    duplicates); the buffer declared a count [nth] and carried [nth] decoded
    elements, the set holds exactly those elements, and when they contain a
    duplicate the set has strictly fewer than [nth] elements, which is the
    count its re-encoding writes. *)
Theorem C10_decoded_set_sorted_dedup : forall f64r buf s,
  decode f64r buf = Ok (Set' s) ->
  StronglySorted frame_lt s /\ NoDup s /\
  exists nth_len nth es,
    read_count buf = Ok (nth_len, nth) /\
    decode_seq (frame_decode f64r (length buf)) (expect_length (length buf))
      buf nth (nth_len + 2) = Ok es /\
    length es = N.to_nat nth /\
    (forall x, In x s <-> In x es) /\
    (~ NoDup es -> length s < N.to_nat nth) /\
    exists tail, frame_encode (Set' s) = bs "~" ++ dec_nat (length s) ++ crlf ++ tail.
Proof.
  intros f64r buf s H.
  destruct (decode_set_inv _ _ _ H) as (nth_len & nth & es & Hc & Hs & ->).
  pose proof (decode_seq_length _ _ _ _ _ _ Hs) as Hl.
  split; [apply set_from_list_sorted|].
  split; [apply StronglySorted_frame_lt_NoDup, set_from_list_sorted|].
  exists nth_len, nth, es. repeat split; try assumption.
  - intros Hx. apply set_from_list_In. exact Hx.
  - intros Hx. apply set_from_list_In. exact Hx.
  - intros Hd. rewrite <- Hl. apply set_from_list_shrinks. exact Hd.
  - eexists. reflexivity.
Qed.

Lemma C10_witness :
  decode (fun _ => None) set_dup_wire = Ok (Set' [Integer 1%Z; Boolean false]) /\
  (StronglySorted frame_lt [Integer 1%Z; Boolean false] /\
   NoDup [Integer 1%Z; Boolean false] /\
   exists nth_len nth es,
     read_count set_dup_wire = Ok (nth_len, nth) /\
     decode_seq (frame_decode (fun _ => None) (length set_dup_wire))
       (expect_length (length set_dup_wire)) set_dup_wire nth (nth_len + 2) = Ok es /\
     length es = N.to_nat nth /\
     (forall x, In x [Integer 1%Z; Boolean false] <-> In x es) /\
     (~ NoDup es -> length [Integer 1%Z; Boolean false] < N.to_nat nth) /\
     exists tail, frame_encode (Set' [Integer 1%Z; Boolean false])
                  = bs "~" ++ dec_nat (length [Integer 1%Z; Boolean false]) ++ crlf ++ tail).
Proof.
  assert (H : decode (fun _ => None) set_dup_wire = Ok (Set' [Integer 1%Z; Boolean false]))
    by (vm_compute; reflexivity).
  split; [exact H|]. exact (C10_decoded_set_sorted_dedup _ _ _ H).
Defined.

(** ** Key-ordered tables *)

Section Tables.
Context {V : Type}.

Lemma key_lt_trans : forall p q r : list byte * V, key_lt p q -> key_lt q r -> key_lt p r.
Proof. unfold key_lt. intros p q r. apply bytes_cmp_trans. Qed.

Lemma map_insert_hdrel : forall (a : list byte * V) k v m,
  HdRel key_lt a m -> bytes_cmp (fst a) k = Lt -> HdRel key_lt a (map_insert k v m).
Proof.
  intros a k v [|[k' v'] m] H Hk; simpl; [constructor; exact Hk|].
  destruct (bytes_cmp k k') eqn:E.
  - apply bytes_cmp_eq in E. subst k'. constructor. exact Hk.
  - constructor. exact Hk.
  - inversion H; subst. constructor. assumption.
Qed.

Lemma map_insert_sorted : forall k (v : V) m,
  Sorted key_lt m -> Sorted key_lt (map_insert k v m).
Proof.
  intros k v m. induction m as [|[k' v'] m IH]; intros H; simpl.
  - repeat constructor.
  - destruct (bytes_cmp k k') eqn:E.
    + apply bytes_cmp_eq in E. subst k'. apply Sorted_inv in H as [Hs Hh].
      constructor; [exact Hs|]. destruct m as [|q m]; constructor.
      inversion Hh; subst. assumption.
    + constructor; [exact H|constructor; exact E].
    + apply Sorted_inv in H as [Hs Hh]. constructor; [exact (IH Hs)|].
      apply map_insert_hdrel; [exact Hh|]. simpl.
      rewrite bytes_cmp_antisym, E. reflexivity.
Qed.

Lemma map_insert_In : forall k (v : V) m p, In p (map_insert k v m) -> (k, v) = p \/ In p m.
Proof.
  intros k v m p. induction m as [|[k' v'] m IH]; simpl; [tauto|].
  destruct (bytes_cmp k k') eqn:E; simpl.
  - apply bytes_cmp_eq in E. subst k'. tauto.
  - tauto.
  - intros [<-|H]; [tauto|]. destruct (IH H); tauto.
Qed.

Lemma map_insert_not_nil : forall k (v : V) m, map_insert k v m <> [].
Proof.
  intros k v [|[k' v'] m]; simpl; [discriminate|].
  destruct (bytes_cmp k k'); discriminate.
Qed.

Lemma assoc_lookup_In : forall k (v : V) m, assoc_lookup k m = Some v -> In (k, v) m.
Proof.
  intros k v m. induction m as [|[k' v'] m IH]; simpl; [discriminate|].
  destruct (bytes_eqb k k') eqn:E.
  - apply bytes_eqb_eq in E. subst k'. injection 1 as <-. left. reflexivity.
  - intros H. right. exact (IH H).
Qed.

Lemma In_assoc_lookup : forall k (v : V) m,
  StronglySorted key_lt m -> In (k, v) m -> assoc_lookup k m = Some v.
Proof.
  intros k v m. induction m as [|[k' v'] m IH]; simpl; [contradiction|].
  intros H Hin. apply StronglySorted_inv in H as [Hs Hf].
  destruct (bytes_eqb k k') eqn:E.
  - apply bytes_eqb_eq in E. subst k'. destruct Hin as [Hkv|Hin].
    + congruence.
    + rewrite Forall_forall in Hf. specialize (Hf _ Hin). unfold key_lt in Hf.
      simpl in Hf. rewrite bytes_cmp_refl in Hf. discriminate.
  - destruct Hin as [Hkv|Hin].
    + injection Hkv as -> _. rewrite (proj2 (bytes_eqb_eq k k) eq_refl) in E.
      discriminate.
    + exact (IH Hs Hin).
Qed.

End Tables.

Lemma hash_tables_ok_new : hash_tables_ok backend_new.
Proof. split; constructor. Qed.

Lemma hash_tables_ok_execute : forall cmd be,
  hash_tables_ok be -> hash_tables_ok (snd (execute cmd be)).
Proof.
  intros [key|key value|key field|key field value|key sort] be [Hs Hf]; simpl;
    try (split; assumption);
    try (destruct (backend_get be key); split; assumption);
    try (destruct (backend_hget be key field); split; assumption);
    try (destruct (backend_hgetall be key); split; assumption).
  unfold backend_hset. simpl.
  set (table := match assoc_lookup key (bk_hmap be) with Some t => t | None => [] end).
  assert (Ht : Sorted key_lt table).
  { unfold table. destruct (assoc_lookup key (bk_hmap be)) as [t|] eqn:E; [|constructor].
    apply assoc_lookup_In in E. rewrite Forall_forall in Hf.
    exact (proj2 (Hf _ E)). }
  split.
  - apply map_insert_sorted. exact Hs.
  - rewrite Forall_forall in *. intros p Hp.
    destruct (map_insert_In _ _ _ _ Hp) as [<-|Hp']; [|exact (Hf p Hp')].
    simpl. split; [apply map_insert_not_nil|]. apply map_insert_sorted. exact Ht.
Qed.

Lemma hash_tables_ok_run : forall cmds be,
  hash_tables_ok be -> hash_tables_ok (run_cmds cmds be).
Proof.
  unfold run_cmds. induction cmds as [|c cmds IH]; simpl; intros be H; [exact H|].
  apply IH. apply hash_tables_ok_execute. exact H.
Qed.

Lemma hgetall_parse : forall key, utf8_valid key = true ->
  command_try_from (Array [BulkString (bs "hgetall"); BulkString key])
  = Ok (CmdHGetAll key false).
Proof.
  intros key Hk. unfold command_try_from, command_try_from_array.
  simpl. unfold hgetall_try_from, from_utf8. simpl. rewrite Hk. reflexivity.
Qed.

(** ** HGETALL *)

(** C7 (with the backend modelled from the spec, see [Backend]): after any
    sequence of commands run on a new backend, [HGETALL key] parses with
    [sort: false] and its reply is [Null] when the key has no table, and
    otherwise the array of field/value pairs of a non-empty table, strictly
    increasing in field name, holding exactly the fields [HGET] sees.  The
    scenario of the spec ([HSET map hello world], [HSET map hello1 world1],
    [HGETALL map]) parses to those three commands, and executing them in turn
    on a new backend replies [+OK], [+OK] and [hello, world, hello1, world1]. *)
Theorem C7_hgetall_sorted_by_field : forall cmds key,
  utf8_valid key = true ->
  command_try_from (Array [BulkString (bs "hgetall"); BulkString key])
    = Ok (CmdHGetAll key false) /\
  ((backend_hgetall (run_cmds cmds backend_new) key = None /\
    fst (execute (CmdHGetAll key false) (run_cmds cmds backend_new)) = Null) \/
   exists es,
     backend_hgetall (run_cmds cmds backend_new) key = Some es /\
     es <> [] /\
     StronglySorted key_lt es /\
     fst (execute (CmdHGetAll key false) (run_cmds cmds backend_new))
       = Array (hash_entries es) /\
     (forall field v,
        backend_hget (run_cmds cmds backend_new) key field = Some v <-> In (field, v) es)) /\
  map command_try_from
    [bulk_array (["hset"; "map"; "hello"; "world"])%string;
     bulk_array (["hset"; "map"; "hello1"; "world1"])%string;
     bulk_array (["hgetall"; "map"])%string]
  = map Ok (hash_scenario ++ [CmdHGetAll (bs "map") false]) /\
  replies (hash_scenario ++ [CmdHGetAll (bs "map") false]) backend_new
  = [resp_ok; resp_ok; bulk_array (["hello"; "world"; "hello1"; "world1"])%string].
Proof.
  intros cmds key Hk. split; [exact (hgetall_parse key Hk)|].
  split; [|split; vm_compute; reflexivity].
  destruct (hash_tables_ok_run cmds backend_new hash_tables_ok_new) as [Hs Hf].
  set (be := run_cmds cmds backend_new) in *.
  unfold execute, backend_hget. fold (backend_hgetall be key).
  destruct (backend_hgetall be key) as [es|] eqn:E; [right|left; auto].
  apply assoc_lookup_In in E. rewrite Forall_forall in Hf.
  destruct (Hf _ E) as [Hne Hes]. simpl in Hne, Hes.
  assert (Hss : StronglySorted key_lt es)
    by (apply Sorted_StronglySorted; [exact key_lt_trans|exact Hes]).
  exists es. repeat split; try assumption.
  - intros Hv. apply assoc_lookup_In. exact Hv.
  - intros Hv. apply In_assoc_lookup; assumption.
Qed.

Lemma C7_witness :
  utf8_valid (bs "map") = true /\
  (command_try_from (Array [BulkString (bs "hgetall"); BulkString (bs "map")])
     = Ok (CmdHGetAll (bs "map") false) /\
   ((backend_hgetall (run_cmds hash_scenario backend_new) (bs "map") = None /\
     fst (execute (CmdHGetAll (bs "map") false) (run_cmds hash_scenario backend_new)) = Null) \/
    exists es,
      backend_hgetall (run_cmds hash_scenario backend_new) (bs "map") = Some es /\
      es <> [] /\
      StronglySorted key_lt es /\
      fst (execute (CmdHGetAll (bs "map") false) (run_cmds hash_scenario backend_new))
        = Array (hash_entries es) /\
      (forall field v,
         backend_hget (run_cmds hash_scenario backend_new) (bs "map") field = Some v
         <-> In (field, v) es)) /\
   map command_try_from
     [bulk_array (["hset"; "map"; "hello"; "world"])%string;
      bulk_array (["hset"; "map"; "hello1"; "world1"])%string;
      bulk_array (["hgetall"; "map"])%string]
   = map Ok (hash_scenario ++ [CmdHGetAll (bs "map") false]) /\
   replies (hash_scenario ++ [CmdHGetAll (bs "map") false]) backend_new
   = [resp_ok; resp_ok; bulk_array (["hello"; "world"; "hello1"; "world1"])%string]).
Proof.
  assert (H : utf8_valid (bs "map") = true) by reflexivity.
  split; [exact H|]. exact (C7_hgetall_sorted_by_field hash_scenario (bs "map") H).
Defined.

(** ** Command errors on a connection *)

(** C5 (as the code has it): when [Command::try_from] fails on a received
    frame, [process_stream] writes nothing back for it and the connection
    ends with that error ([frame_handler(..).await?]); the frames after it
    are never processed. *)
Theorem C5_command_error_ends_connection : forall f rest be e,
  command_try_from f = Err e ->
  process_stream (Item f :: rest) be = ([], ConnCmdErr e).
Proof.
  intros f rest be e H. simpl. unfold frame_handler. rewrite H. reflexivity.
Qed.

Lemma C5_witness :
  command_try_from (bulk_array (["ping"])%string) = Err InvalidCommand /\
  process_stream [Item (bulk_array (["ping"])%string);
                  Item (bulk_array (["set"; "k"; "v"])%string)] backend_new
  = ([], ConnCmdErr InvalidCommand).
Proof.
  assert (H : command_try_from (bulk_array (["ping"])%string) = Err InvalidCommand)
    by reflexivity.
  split; [exact H|]. exact (C5_command_error_ends_connection _ _ _ _ H).
Defined.

(** ** HMGET arguments *)

Lemma hmget_try_from_eq : forall verb key rest,
  to_ascii_lowercase verb = bs "hmget" -> utf8_valid key = true ->
  hmget_try_from (BulkString verb :: BulkString key :: rest)
  = (fs <- hmget_fields_loop rest ;; Ok {| hmget_key := key; hmget_fields := fs |}).
Proof.
  intros verb key rest Hv Hk. unfold hmget_try_from, usize_sub, validate_command.
  simpl. rewrite ?Nat.sub_0_r, Nat.eqb_refl, Hv. simpl.
  unfold from_utf8. rewrite Hk. reflexivity.
Qed.

Lemma hmget_fields_loop_bulk : forall fields,
  Forall (fun f => utf8_valid f = true) fields ->
  hmget_fields_loop (map BulkString fields) = Ok fields.
Proof.
  induction 1 as [|f fields Hf _ IH]; simpl; [reflexivity|].
  unfold from_utf8. rewrite Hf. simpl. rewrite IH. reflexivity.
Qed.

Lemma hmget_fields_loop_junk : forall fields x post,
  Forall (fun f => utf8_valid f = true) fields ->
  (forall b, x <> BulkString b) ->
  hmget_fields_loop (map BulkString fields ++ x :: post) = Err InvalidArguments.
Proof.
  intros fields x post Hf Hx. induction Hf as [|f fields Hf _ IH]; simpl.
  - destruct x; try reflexivity. exfalso. exact (Hx _ eq_refl).
  - unfold from_utf8. rewrite Hf. simpl. rewrite IH. reflexivity.
Qed.

(** C9 (as the code has it): [HMGet::try_from] on [hmget key f1 .. fn] whose
    key and fields are UTF-8 bulk strings accepts any number [n] of fields,
    zero included, and keeps them in order; an element after the key that is
    not a bulk string is refused with [InvalidArguments]. *)
Theorem C9_hmget_fields_any_count : forall verb key fields,
  to_ascii_lowercase verb = bs "hmget" ->
  utf8_valid key = true ->
  Forall (fun f => utf8_valid f = true) fields ->
  hmget_try_from (BulkString verb :: BulkString key :: map BulkString fields)
    = Ok {| hmget_key := key; hmget_fields := fields |} /\
  (forall x post, (forall b, x <> BulkString b) ->
   hmget_try_from (BulkString verb :: BulkString key :: map BulkString fields ++ x :: post)
   = Err InvalidArguments).
Proof.
  intros verb key fields Hv Hk Hf. split.
  - rewrite hmget_try_from_eq by assumption.
    rewrite hmget_fields_loop_bulk by assumption. reflexivity.
  - intros x post Hx. rewrite hmget_try_from_eq by assumption.
    rewrite hmget_fields_loop_junk by assumption. reflexivity.
Qed.

Lemma C9_witness :
  to_ascii_lowercase (bs "HMGET") = bs "hmget" /\
  utf8_valid (bs "map") = true /\
  Forall (fun f => utf8_valid f = true) [] /\
  (hmget_try_from (BulkString (bs "HMGET") :: BulkString (bs "map") :: map BulkString [])
     = Ok {| hmget_key := bs "map"; hmget_fields := [] |} /\
   (forall x post, (forall b, x <> BulkString b) ->
    hmget_try_from (BulkString (bs "HMGET") :: BulkString (bs "map")
                    :: map BulkString [] ++ x :: post)
    = Err InvalidArguments)).
Proof.
  assert (Hv : to_ascii_lowercase (bs "HMGET") = bs "hmget") by reflexivity.
  assert (Hk : utf8_valid (bs "map") = true) by reflexivity.
  assert (Hf : Forall (fun f => utf8_valid f = true) (@nil (list byte))) by constructor.
  split; [exact Hv|]. split; [exact Hk|]. split; [exact Hf|].
  exact (C9_hmget_fields_any_count _ _ _ Hv Hk Hf).
Defined.

(** ** More of the code: [find_crlf] *)

Lemma find_crlf_loop_cons2 : forall a b rest i count nth,
  find_crlf_loop (a :: b :: rest) i count nth
  = if byte_eqb a CR && byte_eqb b LF then
      if S count =? nth then Some i
      else find_crlf_loop (b :: rest) (S i) (S count) nth
    else find_crlf_loop (b :: rest) (S i) count nth.
Proof. reflexivity. Qed.

Lemma crlf_positions_cons2 : forall a b rest i0,
  crlf_positions (a :: b :: rest) i0
  = if byte_eqb a CR && byte_eqb b LF then i0 :: crlf_positions (b :: rest) (S i0)
    else crlf_positions (b :: rest) (S i0).
Proof. reflexivity. Qed.

Lemma find_crlf_loop_positions : forall buf i count nth,
  count < nth ->
  find_crlf_loop buf i count nth = nth_error (crlf_positions buf i) (nth - S count).
Proof.
  induction buf as [|a rest IH]; intros i count nth Hc; [destruct (nth - S count); reflexivity|].
  destruct rest as [|b rest']; [destruct (nth - S count); reflexivity|].
  rewrite find_crlf_loop_cons2, crlf_positions_cons2.
  destruct (byte_eqb a CR && byte_eqb b LF).
  - destruct (Nat.eqb_spec (S count) nth) as [<-|Hn].
    + rewrite Nat.sub_diag. reflexivity.
    + rewrite (IH (S i) (S count) nth ltac:(lia)).
      replace (nth - S count) with (S (nth - S (S count))) by lia. reflexivity.
  - exact (IH (S i) count nth Hc).
Qed.

Lemma find_crlf_loop_none : forall buf i count nth,
  nth <= count -> find_crlf_loop buf i count nth = None.
Proof.
  induction buf as [|a rest IH]; intros i count nth Hc; [reflexivity|].
  destruct rest as [|b rest']; [reflexivity|].
  rewrite find_crlf_loop_cons2. destruct (byte_eqb a CR && byte_eqb b LF).
  - destruct (Nat.eqb_spec (S count) nth) as [E|_]; [lia|]. apply IH. lia.
  - apply IH. exact Hc.
Qed.

Lemma crlf_positions_In : forall buf i0 j,
  In j (crlf_positions buf i0) <-> exists k, j = i0 + k /\ crlf_at buf k.
Proof.
  unfold crlf_at.
  induction buf as [|a rest IH]; intros i0 j.
  - simpl. split; [contradiction|]. intros (k & _ & H & _). destruct k; discriminate.
  - destruct rest as [|b rest'].
    + simpl. split; [contradiction|]. intros (k & _ & _ & H).
      destruct k as [|[|k]]; discriminate.
    + rewrite crlf_positions_cons2.
      assert (Hs : In j (crlf_positions (b :: rest') (S i0)) <->
                   exists k, j = i0 + S k /\ nth_error (a :: b :: rest') (S k) = Some CR /\
                             nth_error (a :: b :: rest') (S (S k)) = Some LF).
      { rewrite IH. split; intros (k & -> & H); exists k; split; [lia|exact H|lia|exact H]. }
      destruct (byte_eqb a CR && byte_eqb b LF) eqn:E.
      * apply andb_prop in E as [E1 E2]. apply byte_eqb_eq in E1, E2. subst a b.
        simpl In. rewrite Hs. split.
        -- intros [<-|(k & -> & H)]; [exists 0; split; [lia|split; reflexivity]|].
           exists (S k). split; [lia|exact H].
        -- intros ([|k] & -> & H); [left; lia|right; exists k; split; [lia|exact H]].
      * rewrite Hs. split.
        -- intros (k & -> & H). exists (S k). split; [lia|exact H].
        -- intros ([|k] & -> & [H1 H2]).
           ++ simpl in H1, H2. injection H1 as ->. injection H2 as ->. discriminate.
           ++ exists k. split; [lia|split; assumption].
Qed.

Lemma crlf_positions_bound : forall buf i0 j, In j (crlf_positions buf i0) -> i0 <= j.
Proof.
  intros buf i0 j H. apply crlf_positions_In in H as (k & -> & _). lia.
Qed.

Lemma crlf_positions_sorted : forall buf i0, StronglySorted lt (crlf_positions buf i0).
Proof.
  induction buf as [|a rest IH]; intros i0; [constructor|].
  destruct rest as [|b rest']; [constructor|]. rewrite crlf_positions_cons2.
  destruct (byte_eqb a CR && byte_eqb b LF); [|apply IH].
  constructor; [apply IH|]. apply Forall_forall. intros j Hj.
  apply crlf_positions_bound in Hj. lia.
Qed.

Lemma find_crlf_eq : forall buf nth, buf <> [] ->
  find_crlf (E:=RespError) buf nth
    = Ok (if nth =? 0 then None else nth_error (crlf_positions buf 0) (nth - 1)).
Proof.
  intros buf nth Hb. unfold find_crlf, usize_sub. destruct buf as [|a l]; [contradiction|].
  change (length (a :: l) <? 1) with false. cbn [bind].
  destruct (Nat.eqb_spec nth 0) as [->|Hn].
  + rewrite find_crlf_loop_none by lia. reflexivity.
  + rewrite find_crlf_loop_positions by lia. reflexivity.
Qed.

(** [find_crlf(buf, nth)] on a non-empty buffer: for [nth >= 1] the index of
    the [nth]-th occurrence of [\r\n] in [buf] (the occurrences listed in
    increasing order), or [None] when there are fewer than [nth]; for
    [nth = 0] always [None]. *)
Theorem find_crlf_nth_occurrence : forall buf nth,
  buf <> [] ->
  StronglySorted lt (crlf_positions buf 0) /\
  (forall i, In i (crlf_positions buf 0) <-> crlf_at buf i) /\
  find_crlf (E:=RespError) buf nth
    = Ok (if nth =? 0 then None else nth_error (crlf_positions buf 0) (nth - 1)).
Proof.
  intros buf nth Hb. split; [apply crlf_positions_sorted|]. split.
  - intros i. rewrite crlf_positions_In. split; [intros (k & -> & H); exact H|].
    intros H. exists i. split; [reflexivity|exact H].
  - apply find_crlf_eq. exact Hb.
Qed.

Lemma find_crlf_nth_occurrence_witness :
  [x61; CR; LF; CR; LF] <> [] /\
  (StronglySorted lt (crlf_positions [x61; CR; LF; CR; LF] 0) /\
   (forall i, In i (crlf_positions [x61; CR; LF; CR; LF] 0) <-> crlf_at [x61; CR; LF; CR; LF] i) /\
   find_crlf (E:=RespError) [x61; CR; LF; CR; LF] 2
     = Ok (if 2 =? 0 then None else nth_error (crlf_positions [x61; CR; LF; CR; LF] 0) (2 - 1))).
Proof.
  assert (H : [x61; CR; LF; CR; LF] <> []) by discriminate.
  split; [exact H|]. exact (find_crlf_nth_occurrence _ 2 H).
Defined.

Lemma crlf_positions_app : forall l1 l2 i0,
  (l1 = [] \/ last l1 x00 <> CR \/ hd_error l2 <> Some LF) ->
  crlf_positions (l1 ++ l2) i0 = crlf_positions l1 i0 ++ crlf_positions l2 (i0 + length l1).
Proof.
  induction l1 as [|a l1 IH]; intros l2 i0 H; simpl app.
  - rewrite Nat.add_0_r. reflexivity.
  - destruct l1 as [|c l1'].
    + simpl app. destruct l2 as [|b l2']; [reflexivity|].
      rewrite crlf_positions_cons2. simpl in H.
      destruct (byte_eqb a CR && byte_eqb b LF) eqn:E.
      * apply andb_prop in E as [E1 E2]. apply byte_eqb_eq in E1, E2. subst.
        destruct H as [H|[H|H]]; [discriminate|contradiction|contradiction].
      * simpl. rewrite Nat.add_1_r. reflexivity.
    + change ((c :: l1') ++ l2) with (c :: (l1' ++ l2)).
      rewrite !crlf_positions_cons2.
      change (c :: l1' ++ l2) with ((c :: l1') ++ l2).
      assert (H' : c :: l1' = [] \/ last (c :: l1') x00 <> CR \/ hd_error l2 <> Some LF).
      { destruct H as [H|H]; [discriminate|right; exact H]. }
      rewrite (IH l2 (S i0) H').
      replace (S i0 + length (c :: l1')) with (i0 + length (a :: c :: l1')) by (simpl; lia).
      destruct (byte_eqb a CR && byte_eqb c LF); reflexivity.
Qed.

Lemma crlf_positions_no_cr : forall l i0, Forall (fun b => b <> CR) l -> crlf_positions l i0 = [].
Proof.
  induction l as [|a l IH]; intros i0 H; [reflexivity|].
  inversion H as [|? ? Ha Hl]; subst.
  destruct l as [|b l']; [reflexivity|]. rewrite crlf_positions_cons2.
  destruct (byte_eqb a CR) eqn:E; [apply byte_eqb_eq in E; contradiction|].
  apply IH. exact Hl.
Qed.

Lemma crlf_positions_none : forall l i0, (forall i, ~ crlf_at l i) -> crlf_positions l i0 = [].
Proof.
  intros l i0 H. destruct (crlf_positions l i0) as [|j js] eqn:E; [reflexivity|].
  assert (Hj : In j (crlf_positions l i0)) by (rewrite E; left; reflexivity).
  apply crlf_positions_In in Hj as (k & _ & Hk). exfalso. exact (H k Hk).
Qed.

Lemma crlf_positions_crlf : forall i0, crlf_positions crlf i0 = [i0].
Proof. reflexivity. Qed.

(** ** UTF-8: [from_utf8_lossy] leaves valid UTF-8 unchanged *)

Lemma safe_get_cont : forall l i, is_cont (safe_get l i) = true -> i < length l.
Proof.
  intros l i H. destruct (Nat.lt_ge_cases i (length l)) as [Hi|Hi]; [exact Hi|].
  unfold safe_get in H. rewrite nth_overflow in H by exact Hi. discriminate.
Qed.

Lemma utf8_step_valid_len : forall l k,
  l <> [] -> utf8_step l = (true, k) -> 1 <= k <= length l.
Proof.
  intros [|b l] k Hl H; [contradiction|].
  unfold utf8_step in H.
  destruct (utf8_char_width (bv b)) as [|[|[|[|[|w]]]]]; try discriminate;
    repeat match type of H with
    | (if ?c then _ else _) = _ => destruct c eqn:?
    end; inversion H; subst; simpl; try lia;
    repeat match goal with
    | E : is_cont (safe_get _ _) = true |- _ => apply safe_get_cont in E; simpl in E
    end; lia.
Qed.

Lemma lossy_go_valid : forall fuel l,
  length l <= fuel -> valid_go fuel l = true -> lossy_go fuel l = l.
Proof.
  induction fuel as [|fuel IH]; intros l Hl Hv.
  - destruct l; [reflexivity|simpl in Hl; lia].
  - destruct l as [|b l']; [reflexivity|].
    cbn [valid_go] in Hv. cbn [lossy_go].
    destruct (utf8_step (b :: l')) as [v k] eqn:E.
    destruct v; [|discriminate]. simpl in Hv.
    pose proof (utf8_step_valid_len (b :: l') k ltac:(discriminate) E) as Hk.
    rewrite IH; [apply firstn_skipn| |exact Hv].
    rewrite length_skipn. cbn [length] in Hl, Hk |- *. lia.
Qed.

Lemma from_utf8_lossy_valid : forall l, utf8_valid l = true -> from_utf8_lossy l = l.
Proof. intros l H. apply lossy_go_valid; [lia|exact H]. Qed.

Lemma valid_go_ascii : forall fuel l,
  Forall (fun b => (bv b < 128)%N) l -> valid_go fuel l = true.
Proof.
  induction fuel as [|fuel IH]; intros l H; [reflexivity|].
  destruct l as [|b l']; [reflexivity|]. inversion H as [|? ? Hb Hl]; subst.
  cbn [valid_go].
  assert (E : utf8_step (b :: l') = (true, 1)).
  { unfold utf8_step, utf8_char_width. apply N.ltb_lt in Hb. rewrite Hb. reflexivity. }
  rewrite E. simpl. apply IH. exact Hl.
Qed.

Lemma utf8_valid_ascii : forall l, Forall (fun b => (bv b < 128)%N) l -> utf8_valid l = true.
Proof. intros l H. apply valid_go_ascii. exact H. Qed.

(** ** Decimal rendering and parsing *)


Lemma digit_byte_bv : forall d, (d < 10)%N -> bv (digit_byte d) = (48 + d)%N.
Proof.
  intros d Hd. unfold digit_byte. destruct (Byte.of_N (48 + d)) eqn:E.
  - apply Byte.to_of_N in E. exact E.
  - apply Byte.of_N_None_iff in E. lia.
Qed.

Lemma digits_value_app : forall l1 l2 a,
  digits_value (l1 ++ l2) a
  = match digits_value l1 a with Some v => digits_value l2 v | None => None end.
Proof.
  induction l1 as [|b l1 IH]; intros l2 a; [reflexivity|].
  simpl. destruct (in_range (bv b) 48 57); [apply IH|reflexivity].
Qed.

Lemma dec_go_app : forall fuel n acc, dec_go fuel n acc = dec_go fuel n [] ++ acc.
Proof.
  induction fuel as [|fuel IH]; intros n acc; [reflexivity|].
  simpl. destruct (n / 10 =? 0)%N; [reflexivity|].
  rewrite (IH _ (_ :: acc)), (IH _ [_]). rewrite <- app_assoc. reflexivity.
Qed.

Lemma dec_go_digits : forall fuel n acc,
  Forall is_digit acc -> Forall is_digit (dec_go fuel n acc).
Proof.
  induction fuel as [|fuel IH]; intros n acc H; [exact H|].
  assert (Hd : is_digit (digit_byte (n mod 10))).
  { unfold is_digit. rewrite digit_byte_bv by (apply N.mod_lt; discriminate).
    pose proof (N.mod_lt n 10 ltac:(discriminate)).
    generalize dependent (n mod 10)%N. intros. lia. }
  simpl. destruct (n / 10 =? 0)%N; [constructor; assumption|].
  apply IH. constructor; assumption.
Qed.

Lemma dec_go_value : forall fuel n a,
  (Z.of_N n < 10 ^ Z.of_nat fuel)%Z ->
  digits_value (dec_go fuel n []) a
  = Some (a * 10 ^ Z.of_nat (length (dec_go fuel n [])) + Z.of_N n)%Z.
Proof.
  induction fuel as [|fuel IH]; intros n a Hn.
  - simpl in *. f_equal. lia.
  - assert (Hm : (n mod 10 < 10)%N) by (apply N.mod_lt; discriminate).
    pose proof (N.div_mod n 10 ltac:(discriminate)) as Hdm.
    cbn [dec_go].
    set (m := (n mod 10)%N) in *. set (q := (n / 10)%N) in *.
    clearbody m q. subst n.
    assert (Hdig : in_range (bv (digit_byte m)) 48 57 = true).
    { unfold in_range. rewrite digit_byte_bv by exact Hm.
      apply andb_true_intro. split; apply N.leb_le; lia. }
    assert (Hsub : (bv (digit_byte m) - 48 = m)%N).
    { rewrite digit_byte_bv by exact Hm. lia. }
    destruct (N.eqb_spec q 0) as [H0|H0].
    + subst q. simpl. rewrite Hdig, Hsub. f_equal.
    + rewrite dec_go_app, digits_value_app.
      rewrite Nat2Z.inj_succ, Z.pow_succ_r in Hn by lia.
      rewrite IH by lia.
      cbn [digits_value]. rewrite Hdig, Hsub. rewrite length_app. cbn [length]. f_equal.
      rewrite Nat2Z.inj_add. rewrite Z.pow_add_r by lia. simpl (Z.of_nat 1).
      rewrite Z.pow_1_r, N2Z.inj_add, N2Z.inj_mul. ring.
Qed.

Lemma pos_lt_pow2_size : forall p, (Z.pos p < 2 ^ Z.of_nat (Pos.size_nat p))%Z.
Proof.
  induction p as [p IH|p IH|]; simpl Pos.size_nat; try (simpl; lia);
    rewrite Nat2Z.inj_succ, Z.pow_succ_r by lia; lia.
Qed.

Lemma dec_N_fuel : forall n, (Z.of_N n < 10 ^ Z.of_nat (S (N.size_nat n)))%Z.
Proof.
  intros [|p]; [simpl; lia|]. simpl N.size_nat.
  pose proof (pos_lt_pow2_size p) as H.
  assert (H2 : (2 ^ Z.of_nat (Pos.size_nat p) <= 10 ^ Z.of_nat (Pos.size_nat p))%Z)
    by (apply Z.pow_le_mono_l; lia).
  rewrite Nat2Z.inj_succ, Z.pow_succ_r by lia. simpl Z.of_N. lia.
Qed.

Lemma dec_N_value : forall n a,
  digits_value (dec_N n) a = Some (a * 10 ^ Z.of_nat (length (dec_N n)) + Z.of_N n)%Z.
Proof. intros n a. apply dec_go_value. apply dec_N_fuel. Qed.

Lemma dec_N_digits : forall n, Forall is_digit (dec_N n).
Proof. intros n. apply dec_go_digits. constructor. Qed.

Lemma dec_N_cons : forall n, exists d ds, dec_N n = d :: ds.
Proof.
  intros n. unfold dec_N. cbn [dec_go]. destruct (n / 10 =? 0)%N.
  - eexists _, _. reflexivity.
  - rewrite dec_go_app. destruct (dec_go (N.size_nat n) (n / 10) []) as [|d ds].
    + eexists _, _. reflexivity.
    + eexists _, _. reflexivity.
Qed.

Lemma digit_ascii : forall b, is_digit b -> (bv b < 128)%N.
Proof. unfold is_digit. intros b H. lia. Qed.

Lemma digit_not_cr : forall b, is_digit b -> b <> CR.
Proof. unfold is_digit. intros b H ->. simpl in H. lia. Qed.

Lemma digit_neq : forall b c, is_digit b -> ~ is_digit c -> byte_eqb b c = false.
Proof.
  intros b c Hb Hc. destruct (byte_eqb b c) eqn:E; [|reflexivity].
  apply byte_eqb_eq in E. subst. contradiction.
Qed.

Lemma digits_value_N : forall l, Forall is_digit l -> forall a, (0 <= a)%Z ->
  exists v, digits_value l a = Some v /\ (0 <= v)%Z.
Proof.
  induction 1 as [|b l Hb _ IH]; intros a Ha; [exists a; split; [reflexivity|exact Ha]|].
  simpl. unfold is_digit in Hb.
  replace (in_range (bv b) 48 57) with true
    by (symmetry; apply andb_true_intro; split; apply N.leb_le; lia).
  apply IH. lia.
Qed.

(** [dec_N n] read back by [digits_value] from [0]. *)
Lemma dec_N_parse : forall n, digits_value (dec_N n) 0 = Some (Z.of_N n).
Proof. intros n. rewrite dec_N_value, Z.mul_0_l. reflexivity. Qed.

Lemma dec_N_lossy : forall n, from_utf8_lossy (dec_N n) = dec_N n.
Proof.
  intros n. apply from_utf8_lossy_valid, utf8_valid_ascii.
  eapply Forall_impl; [exact digit_ascii|apply dec_N_digits].
Qed.

Lemma byte_eqb_refl : forall b, byte_eqb b b = true.
Proof. intros b. apply byte_eqb_eq. reflexivity. Qed.

Lemma validate_line_frame : forall p d,
  validate_frame_data (p :: d ++ crlf) p = Ok tt.
Proof.
  intros p d. unfold validate_frame_data, at_.
  rewrite length_cons, length_app. cbn [length crlf].
  replace (S (length d + 2) <? 3) with false by (symmetry; apply Nat.ltb_ge; lia).
  cbn [nth]. rewrite byte_eqb_refl.
  replace (S (length d + 2) - 2) with (S (length d)) by lia.
  replace (S (length d + 2) - 1) with (S (S (length d))) by lia.
  cbn [nth]. rewrite !app_nth2 by lia.
  replace (length d - length d) with 0 by lia.
  replace (S (length d) - length d) with 1 by lia. reflexivity.
Qed.

Lemma line_data_frame : forall p d, line_data (p :: d ++ crlf) = Ok d.
Proof.
  intros p d. unfold line_data, slice.
  rewrite length_cons, length_app. cbn [length crlf].
  replace ((1 <=? S (length d + 2) - 2) && (S (length d + 2) - 2 <=? S (length d + 2)))
    with true by (symmetry; apply andb_true_intro; split; apply Nat.leb_le; lia).
  replace (S (length d + 2) - 2 - 1) with (length d) by lia.
  cbn [skipn]. rewrite firstn_app, firstn_all, Nat.sub_diag. simpl. rewrite app_nil_r. reflexivity.
Qed.

Lemma decode_line : forall f64r p d,
  decode f64r (p :: d ++ crlf) = frame_decode f64r (S (length (p :: d ++ crlf))) (p :: d ++ crlf).
Proof. reflexivity. Qed.

(** Decoding the encoding of a simple string or of a simple error whose text
    is valid UTF-8 gives the frame back. *)
Theorem simple_frames_roundtrip : forall f64r s,
  utf8_valid s = true ->
  decode f64r (frame_encode (SimpleString s)) = Ok (SimpleString s) /\
  decode f64r (frame_encode (Error s)) = Ok (Error s).
Proof.
  intros f64r s Hs. rewrite <- (from_utf8_lossy_valid s Hs) at 2 4. unfold decode. split.
  - change (frame_encode (SimpleString s)) with (x2b :: s ++ crlf).
    cbn [frame_decode]. rewrite byte_eqb_refl. cbn beta iota.
    unfold simple_string_decode. rewrite validate_line_frame, line_data_frame. reflexivity.
  - change (frame_encode (Error s)) with (x2d :: s ++ crlf).
    cbn [frame_decode]. rewrite byte_eqb_refl. cbn beta iota.
    unfold simple_error_decode. rewrite validate_line_frame, line_data_frame. reflexivity.
Qed.


Lemma dec_N_len : forall n, (length (dec_N n) =? 0) = false.
Proof. intros n. destruct (dec_N_cons n) as (d & ds & ->). reflexivity. Qed.

Lemma int_text_parse : forall z, (i64_min <= z <= i64_max)%Z ->
  parse_i64 (int_text z) = Some z.
Proof.
  intros z Hz. unfold i64_min, i64_max in Hz. unfold int_text, dec_Z, parse_i64, parse_int.
  destruct (Z.ltb_spec z 0) as [Hn|Hn].
  - change (bs "-") with [x2d]. cbn [app]. cbn beta iota.
    rewrite dec_N_len.
    change (byte_eqb x2d "+"%byte) with false. change (byte_eqb x2d "-"%byte) with true.
    cbn [orb andb negb]. rewrite dec_N_parse. cbn [option_map].
    rewrite Z2N.id by lia. rewrite Z.opp_involutive.
    replace ((-9223372036854775808 <=? z)%Z && (z <=? 9223372036854775807)%Z) with true
      by (symmetry; apply andb_true_intro; split; apply Z.leb_le; lia). reflexivity.
  - change (bs "+") with [x2b]. cbn [app]. cbn beta iota.
    rewrite dec_N_len. change (byte_eqb x2b "+"%byte) with true.
    cbn [orb andb]. rewrite dec_N_parse.
    rewrite Z2N.id by lia.
    replace ((-9223372036854775808 <=? z)%Z && (z <=? 9223372036854775807)%Z) with true
      by (symmetry; apply andb_true_intro; split; apply Z.leb_le; lia). reflexivity.
Qed.

Lemma dec_N_ascii : forall n, Forall (fun b => (bv b < 128)%N) (dec_N n).
Proof. intros n. eapply Forall_impl; [exact digit_ascii|apply dec_N_digits]. Qed.

Lemma int_text_lossy : forall z, from_utf8_lossy (int_text z) = int_text z.
Proof.
  intros z. apply from_utf8_lossy_valid, utf8_valid_ascii. unfold int_text, dec_Z.
  destruct (z <? 0)%Z; cbn [app]; repeat constructor; apply dec_N_ascii.
Qed.

Lemma encode_integer : forall z, frame_encode (Integer z) = x3a :: int_text z ++ crlf.
Proof. intros z. cbn [frame_encode]. unfold int_text. rewrite <- app_assoc. reflexivity. Qed.

(** Decoding the encoding of an integer in the [i64] range gives the integer
    back. *)
Theorem integer_roundtrip : forall f64r z, (i64_min <= z <= i64_max)%Z ->
  decode f64r (frame_encode (Integer z)) = Ok (Integer z).
Proof.
  intros f64r z Hz. unfold decode. rewrite encode_integer.
  cbn [frame_decode]. change (byte_eqb x3a "+"%byte) with false.
  change (byte_eqb x3a "-"%byte) with false. change (byte_eqb x3a "!"%byte) with false.
  change (byte_eqb x3a ":"%byte) with true. cbn beta iota.
  unfold integer_decode. rewrite validate_line_frame, line_data_frame. cbn [bind].
  rewrite int_text_lossy, int_text_parse by exact Hz. reflexivity.
Qed.



Lemma digits_not_cr : forall p D, p <> CR -> Forall is_digit D ->
  Forall (fun b => b <> CR) (p :: D).
Proof.
  intros p D Hp HD. constructor; [exact Hp|].
  eapply Forall_impl; [exact digit_not_cr|exact HD].
Qed.

Lemma last_not_cr : forall p D, p <> CR -> Forall is_digit D -> last (p :: D) x00 <> CR.
Proof.
  intros p D Hp HD. pose proof (digits_not_cr p D Hp HD) as H.
  destruct D as [|d D] using rev_ind; [exact Hp|].
  rewrite app_comm_cons, last_last. rewrite app_comm_cons in H. apply Forall_app in H as [_ H]. inversion H; assumption.
Qed.

(** The two CRLFs of a bulk frame whose payload has none. *)
Lemma bulk_crlf_positions : forall p D b,
  p <> CR -> Forall is_digit D -> no_crlf b ->
  crlf_positions (p :: D ++ crlf ++ b ++ crlf) 0
  = [S (length D); S (length D) + 2 + length b].
Proof.
  intros p D b Hp HD Hb.
  change (p :: D ++ crlf ++ b ++ crlf) with ((p :: D) ++ crlf ++ b ++ crlf).
  rewrite crlf_positions_app by (right; left; apply last_not_cr; assumption).
  rewrite crlf_positions_no_cr by (apply digits_not_cr; assumption).
  rewrite crlf_positions_app by (right; left; discriminate).
  rewrite crlf_positions_crlf.
  rewrite crlf_positions_app by (right; right; discriminate).
  rewrite crlf_positions_none by exact Hb. rewrite crlf_positions_crlf.
  reflexivity.
Qed.

Lemma parse_usize_dec : forall n, (n <= usize_max)%N -> parse_usize (dec_N n) = Some n.
Proof.
  intros n Hn. unfold parse_usize, parse_int.
  pose proof (dec_N_digits n) as HD. pose proof (dec_N_parse n) as HP.
  destruct (dec_N_cons n) as (d & ds & E). rewrite E in HD, HP |- *.
  apply Forall_cons_iff in HD as [Hd _].
  rewrite (digit_neq d "+"%byte Hd) by (unfold is_digit; simpl; lia).
  rewrite (digit_neq d "-"%byte Hd) by (unfold is_digit; simpl; lia).
  cbn [orb andb]. rewrite HP.
  replace ((0 <=? Z.of_N n)%Z && (Z.of_N n <=? Z.of_N usize_max)%Z) with true
    by (symmetry; apply andb_true_intro; split; apply Z.leb_le; lia).
  cbn [option_map]. rewrite N2Z.id. reflexivity.
Qed.

Lemma slice_ok : forall E buf a b, a <= b <= length buf ->
  slice (E:=E) buf a b = Ok (firstn (b - a) (skipn a buf)).
Proof.
  intros E buf a b H. unfold slice.
  replace ((a <=? b) && (b <=? length buf)) with true
    by (symmetry; apply andb_true_intro; split; apply Nat.leb_le; lia). reflexivity.
Qed.

Lemma usize_add_ok : forall E a b, (a + b <= usize_max)%N -> usize_add (E:=E) a b = Ok (a + b)%N.
Proof.
  intros E a b H. unfold usize_add. replace (usize_max <? a + b)%N with false
    by (symmetry; apply N.ltb_ge; lia). reflexivity.
Qed.

Lemma bulk_decode_frame : forall p b,
  p <> CR -> no_crlf b ->
  (N.of_nat (length (p :: dec_nat (length b) ++ crlf ++ b ++ crlf)) <= usize_max)%N ->
  bulk_decode p (p :: dec_nat (length b) ++ crlf ++ b ++ crlf) = Ok b.
Proof.
  intros p b Hp Hb Hlen.
  assert (HD : Forall is_digit (dec_nat (length b))) by apply dec_N_digits.
  assert (HP : parse_usize (from_utf8_lossy (dec_nat (length b))) = Some (N.of_nat (length b))).
  { unfold dec_nat. rewrite dec_N_lossy. apply parse_usize_dec.
    cbn [length] in Hlen. rewrite !length_app in Hlen. lia. }
  remember (dec_nat (length b)) as D eqn:HDdef. clear HDdef.
  pose proof (bulk_crlf_positions p D b Hp HD Hb) as Hpos.
  assert (Hl : length (p :: D ++ crlf ++ b ++ crlf) = S (length D) + 2 + length b + 2)
    by (cbn [length]; rewrite !length_app; cbn [length crlf]; lia).
  assert (Hbuf : p :: D ++ crlf ++ b ++ crlf = p :: (D ++ crlf ++ b) ++ crlf)
    by (rewrite <- !app_assoc; reflexivity).
  assert (HD1 : firstn (S (length D) - 1) (skipn 1 (p :: D ++ crlf ++ b ++ crlf)) = D)
    by (cbn [skipn]; replace (S (length D) - 1) with (length D) by lia;
        rewrite firstn_app, firstn_all, Nat.sub_diag; simpl; rewrite app_nil_r; reflexivity).
  assert (Hb2 : firstn (S (length D) + 2 + length b - (S (length D) + 2))
                  (skipn (S (length D) + 2) (p :: D ++ crlf ++ b ++ crlf)) = b).
  { replace (S (length D) + 2 + length b - (S (length D) + 2)) with (length b) by lia.
    replace (S (length D) + 2) with (length (p :: D ++ crlf))
      by (cbn [length]; rewrite length_app; reflexivity).
    replace (p :: D ++ crlf ++ b ++ crlf) with ((p :: D ++ crlf) ++ (b ++ crlf))
      by (cbn [app]; rewrite <- app_assoc; reflexivity).
    rewrite skipn_app, skipn_all, Nat.sub_diag. simpl.
    rewrite firstn_app, firstn_all, Nat.sub_diag. simpl. rewrite app_nil_r. reflexivity. }
  remember (p :: D ++ crlf ++ b ++ crlf) as buf eqn:Hbufdef.
  assert (Hne : buf <> []) by (subst buf; discriminate).
  unfold bulk_decode. rewrite Hbuf at 1. rewrite validate_line_frame. cbn [bind].
  unfold bulk_expect_length. rewrite find_crlf_eq by exact Hne. rewrite Hpos.
  cbn [Nat.eqb Nat.sub nth_error ok_or bind].
  rewrite slice_ok by lia. rewrite Nat.sub_0_r, skipn_O.
  replace (S (length D) + 2 + length b + 2) with (length buf) by lia. rewrite firstn_all.
  cbn [bind]. unfold parse_length. rewrite find_crlf_eq by exact Hne. rewrite Hpos.
  cbn [Nat.eqb Nat.sub nth_error ok_or bind].
  rewrite slice_ok by lia. rewrite HD1. cbn [bind]. rewrite HP. cbn [ok_or bind].
  do 3 (rewrite usize_add_ok by lia; cbn [bind]).
  replace (N.of_nat (S (length D)) + 2 + N.of_nat (length b) + 2 =? N.of_nat (length buf))%N
    with true by (symmetry; apply N.eqb_eq; lia).
  cbn [negb bind]. rewrite Nat2N.id. rewrite slice_ok by lia. rewrite Hb2. reflexivity.
Qed.

Lemma bulk_expect_length_frame : forall p D c,
  p <> CR -> Forall is_digit D -> no_crlf c ->
  bulk_expect_length (p :: D ++ crlf ++ c ++ crlf) = Ok (length (p :: D ++ crlf ++ c ++ crlf)).
Proof.
  intros p D c Hp HD Hc. unfold bulk_expect_length.
  rewrite find_crlf_eq by discriminate. rewrite bulk_crlf_positions by assumption.
  cbn [Nat.eqb Nat.sub nth_error ok_or bind]. f_equal.
  cbn [length]. rewrite !length_app. cbn [length crlf]. lia.
Qed.

Lemma not_minus1 : forall D rest, Forall is_digit D -> D <> [] ->
  bytes_eqb (D ++ rest) (bs "-1") = false.
Proof.
  intros [|d D] rest HD Hne; [contradiction|]. apply Forall_cons_iff in HD as [Hd _].
  cbn [app bytes_eqb bs list_byte_of_string].
  change (bs "-1") with [x2d; x31]. cbn [bytes_eqb].
  rewrite (digit_neq d x2d Hd) by (unfold is_digit; simpl; lia). reflexivity.
Qed.

Lemma dec_nat_ne : forall n, dec_nat n <> [].
Proof. intros n. unfold dec_nat. destruct (dec_N_cons (N.of_nat n)) as (d & ds & ->). discriminate. Qed.

(** When the (lossily decoded) payload holds no CRLF, [expect_length] of an
    encoded bulk string or bulk error is the length of the whole encoding. *)
Theorem bulk_expected_length : forall b,
  no_crlf (from_utf8_lossy b) ->
  expected_length (frame_encode (BulkString b)) = Ok (length (frame_encode (BulkString b))) /\
  expected_length (frame_encode (BulkError b)) = Ok (length (frame_encode (BulkError b))).
Proof.
  intros b Hc. pose proof (dec_N_digits (N.of_nat (length b))) as HD.
  pose proof (dec_nat_ne (length b)) as Hne.
  change (frame_encode (BulkString b))
    with (x24 :: dec_nat (length b) ++ crlf ++ from_utf8_lossy b ++ crlf).
  change (frame_encode (BulkError b))
    with (x21 :: dec_nat (length b) ++ crlf ++ from_utf8_lossy b ++ crlf).
  change (dec_N (N.of_nat (length b))) with (dec_nat (length b)) in HD.
  remember (dec_nat (length b)) as D eqn:HDdef. clear HDdef.
  remember (from_utf8_lossy b) as c eqn:Hcdef. clear Hcdef.
  unfold expected_length. split; cbn [expect_length].
  all: replace (length (_ :: D ++ crlf ++ c ++ crlf) <? 3) with false
         by (symmetry; apply Nat.ltb_ge; cbn [length]; rewrite !length_app; cbn [length crlf]; lia).
  all: unfold at_; cbn [nth skipn].
  - destruct D as [|d ds]; [contradiction|]. apply Forall_cons_iff in HD as HD'. destruct HD' as [Hd _].
    change (bs "-1") with [x2d; x31]. cbn [app firstn bytes_eqb].
    rewrite (digit_neq d x2d Hd) by (unfold is_digit; simpl; lia).
    cbn -[bulk_expect_length]. apply (bulk_expect_length_frame x24 (d :: ds)); [discriminate|exact HD|exact Hc].
  - cbn -[bulk_expect_length]. apply bulk_expect_length_frame; [discriminate|exact HD|exact Hc].
Qed.

Lemma null_minus1_bulk : forall p D c, Forall is_digit D -> D <> [] ->
  null_decode_minus1 p (p :: D ++ crlf ++ c ++ crlf) = Err Invalid.
Proof.
  intros p D c HD Hne. unfold null_decode_minus1.
  replace (p :: D ++ crlf ++ c ++ crlf) with (p :: (D ++ crlf ++ c) ++ crlf)
    by (rewrite <- !app_assoc; reflexivity).
  rewrite validate_line_frame. cbn [bind]. rewrite line_data_frame. cbn [bind].
  rewrite not_minus1 by assumption. reflexivity.
Qed.

Lemma last_crlf : forall l, last (l ++ crlf) x00 = LF.
Proof.
  intros l. unfold crlf. replace (l ++ [CR; LF]) with ((l ++ [CR]) ++ [LF])
    by (rewrite <- app_assoc; reflexivity). apply last_last.
Qed.

Lemma bulk_expect_length_app : forall p D c more,
  p <> CR -> Forall is_digit D -> no_crlf c ->
  bulk_expect_length ((p :: D ++ crlf ++ c ++ crlf) ++ more)
  = Ok (length (p :: D ++ crlf ++ c ++ crlf)).
Proof.
  intros p D c more Hp HD Hc. unfold bulk_expect_length.
  rewrite find_crlf_eq by discriminate.
  rewrite crlf_positions_app.
  2:{ right. left. replace (p :: D ++ crlf ++ c ++ crlf) with ((p :: D ++ crlf ++ c) ++ crlf)
        by (cbn [app]; rewrite <- !app_assoc; reflexivity).
      rewrite last_crlf. discriminate. }
  rewrite bulk_crlf_positions by assumption.
  cbn [Nat.eqb Nat.sub nth_error app ok_or bind]. f_equal.
  cbn [length]. rewrite !length_app. cbn [length crlf]. lia.
Qed.

Lemma bulk_frame_decode : forall f64r m b,
  utf8_valid b = true -> no_crlf b ->
  (N.of_nat (length (frame_encode (BulkString b))) <= usize_max)%N ->
  frame_decode f64r (S m) (frame_encode (BulkString b)) = Ok (BulkString b) /\
  frame_decode f64r (S m) (frame_encode (BulkError b)) = Ok (BulkError b).
Proof.
  intros f64r m b Hu Hb Hlen.
  change (frame_encode (BulkString b))
    with (x24 :: dec_nat (length b) ++ crlf ++ from_utf8_lossy b ++ crlf) in *.
  change (frame_encode (BulkError b))
    with (x21 :: dec_nat (length b) ++ crlf ++ from_utf8_lossy b ++ crlf).
  rewrite from_utf8_lossy_valid in * by exact Hu.
  pose proof (dec_N_digits (N.of_nat (length b))) as HD.
  change (dec_N (N.of_nat (length b))) with (dec_nat (length b)) in HD.
  pose proof (dec_nat_ne (length b)) as Hne.
  assert (Hlen' : (N.of_nat (length (x21 :: dec_nat (length b) ++ crlf ++ b ++ crlf)) <= usize_max)%N)
    by exact Hlen.
  pose proof (bulk_decode_frame x24 b ltac:(discriminate) Hb Hlen) as H1.
  pose proof (bulk_decode_frame x21 b ltac:(discriminate) Hb Hlen') as H2.
  pose proof (null_minus1_bulk x24 _ b HD Hne) as H0.
  remember (dec_nat (length b)) as D eqn:HDdef. clear HDdef.
  split; cbn -[null_decode_minus1 bulk_decode crlf].
  - rewrite H0, H1. reflexivity.
  - rewrite H2. reflexivity.
Qed.

(** Decoding the encoding of a bulk string or bulk error whose payload is
    valid UTF-8 without CRLF (and whose encoding fits in [usize]) gives the
    frame back. *)
Theorem bulk_roundtrip : forall f64r b,
  utf8_valid b = true -> no_crlf b ->
  (N.of_nat (length (frame_encode (BulkString b))) <= usize_max)%N ->
  decode f64r (frame_encode (BulkString b)) = Ok (BulkString b) /\
  decode f64r (frame_encode (BulkError b)) = Ok (BulkError b).
Proof.
  intros f64r b Hu Hb Hlen. unfold decode.
  replace (length (frame_encode (BulkError b))) with (length (frame_encode (BulkString b)))
    by reflexivity.
  apply bulk_frame_decode; assumption.
Qed.

Lemma bulk_expect_length_suffix : forall m b more,
  no_crlf (from_utf8_lossy b) ->
  expect_length (S m) (frame_encode (BulkString b) ++ more)
  = Ok (length (frame_encode (BulkString b))).
Proof.
  intros m b more Hc. pose proof (dec_N_digits (N.of_nat (length b))) as HD.
  pose proof (dec_nat_ne (length b)) as Hne.
  change (frame_encode (BulkString b))
    with (x24 :: dec_nat (length b) ++ crlf ++ from_utf8_lossy b ++ crlf).
  change (dec_N (N.of_nat (length b))) with (dec_nat (length b)) in HD.
  remember (dec_nat (length b)) as D eqn:HDdef. clear HDdef.
  remember (from_utf8_lossy b) as c eqn:Hcdef. clear Hcdef.
  cbn [expect_length].
  replace (length ((x24 :: D ++ crlf ++ c ++ crlf) ++ more) <? 3) with false
    by (symmetry; apply Nat.ltb_ge; rewrite length_app; cbn [length]; rewrite !length_app;
        cbn [length crlf]; lia).
  unfold at_. cbn [nth app skipn].
  destruct D as [|d ds]; [contradiction|]. apply Forall_cons_iff in HD as HD'. destruct HD' as [Hd _].
  change (bs "-1") with [x2d; x31]. cbn [app firstn bytes_eqb].
  rewrite (digit_neq d x2d Hd) by (unfold is_digit; simpl; lia).
  cbn -[bulk_expect_length crlf].
  exact (bulk_expect_length_app x24 (d :: ds) c more ltac:(discriminate) HD Hc).
Qed.


Lemma line_frame_inv : forall buf p d,
  validate_frame_data buf p = Ok tt -> line_data buf = Ok d -> buf = p :: d ++ crlf.
Proof.
  intros buf p d Hv Hd. unfold validate_frame_data, at_ in Hv.
  destruct (Nat.ltb_spec (length buf) 3) as [|Hl]; [discriminate|].
  destruct (byte_eqb (nth 0 buf x00) p) eqn:E0; [|discriminate].
  destruct (byte_eqb (nth (length buf - 2) buf x00) CR) eqn:E1; [|discriminate].
  destruct (byte_eqb (nth (length buf - 1) buf x00) LF) eqn:E2; [|discriminate].
  apply byte_eqb_eq in E0, E1, E2.
  destruct buf as [|b0 r]; [simpl in Hl; lia|]. cbn [nth] in E0. subst b0.
  destruct (exists_last (l:=r)) as (r1 & y & ->); [intros ->; simpl in Hl; lia|].
  destruct (exists_last (l:=r1)) as (r & x & ->);
    [intros ->; simpl in Hl; lia|].
  rewrite <- app_assoc in *. cbn [app] in *.
  rewrite length_cons, length_app in *. cbn [length] in *.
  replace (S (length r + 2) - 2) with (S (length r)) in * by lia.
  replace (S (length r + 2) - 1) with (S (S (length r))) in * by lia.
  cbn [nth] in E1, E2. rewrite app_nth2, Nat.sub_diag in E1 by lia.
  rewrite app_nth2 in E2 by lia. replace (S (length r) - length r) with 1 in E2 by lia.
  cbn [nth] in E1, E2. subst x y.
  unfold line_data, slice in Hd. rewrite length_cons, length_app in Hd. cbn [length] in Hd.
  replace (S (length r + 2) - 2) with (S (length r)) in Hd by lia.
  replace ((1 <=? S (length r)) && (S (length r) <=? S (length r + 2))) with true in Hd
    by (symmetry; apply andb_true_intro; split; apply Nat.leb_le; lia).
  injection Hd as <-. cbn [skipn]. replace (S (length r) - 1) with (length r) by lia.
  rewrite Nat.sub_0_r, firstn_app, firstn_all, Nat.sub_diag. simpl. rewrite app_nil_r. reflexivity.
Qed.

Lemma line_decode_inv : forall buf p d,
  (_ <- validate_frame_data buf p ;; line_data buf) = Ok d -> buf = p :: d ++ crlf.
Proof.
  intros buf p d H. destruct (validate_frame_data buf p) as [[]| | |] eqn:Hv; try discriminate.
  apply line_frame_inv; assumption.
Qed.

Lemma simple_decode_inv : forall buf s,
  simple_string_decode buf = Ok s -> exists d, buf = "+"%byte :: d ++ crlf /\ s = from_utf8_lossy d.
Proof.
  intros buf s H. unfold simple_string_decode in H.
  destruct (validate_frame_data buf "+"%byte) as [[]| | |] eqn:Hv; try discriminate.
  cbn [bind] in H. destruct (line_data buf) as [d| | |] eqn:Hd; try discriminate.
  injection H as <-. exists d. split; [apply line_frame_inv; assumption|reflexivity].
Qed.

Lemma error_decode_inv : forall buf s,
  simple_error_decode buf = Ok s -> exists d, buf = "-"%byte :: d ++ crlf /\ s = from_utf8_lossy d.
Proof.
  intros buf s H. unfold simple_error_decode in H.
  destruct (validate_frame_data buf "-"%byte) as [[]| | |] eqn:Hv; try discriminate.
  cbn [bind] in H. destruct (line_data buf) as [d| | |] eqn:Hd; try discriminate.
  injection H as <-. exists d. split; [apply line_frame_inv; assumption|reflexivity].
Qed.

Lemma integer_decode_inv : forall buf z,
  integer_decode buf = Ok z ->
  exists d, buf = ":"%byte :: d ++ crlf /\ parse_i64 (from_utf8_lossy d) = Some z.
Proof.
  intros buf z H. unfold integer_decode in H.
  destruct (validate_frame_data buf ":"%byte) as [[]| | |] eqn:Hv; try discriminate.
  cbn [bind] in H. destruct (line_data buf) as [d| | |] eqn:Hd; try discriminate.
  cbn [bind] in H. exists d. split; [apply line_frame_inv; assumption|].
  destruct (parse_i64 (from_utf8_lossy d)); [injection H as <-; reflexivity|discriminate].
Qed.

Lemma null_minus1_inv : forall p buf u,
  null_decode_minus1 p buf = Ok u -> buf = p :: bs "-1" ++ crlf.
Proof.
  intros p buf u H. unfold null_decode_minus1 in H.
  destruct (validate_frame_data buf p) as [[]| | |] eqn:Hv; try discriminate.
  cbn [bind] in H. destruct (line_data buf) as [d| | |] eqn:Hd; try discriminate.
  cbn [bind] in H. destruct (bytes_eqb d (bs "-1")) eqn:Eb; [|discriminate].
  apply bytes_eqb_eq in Eb. subst d. apply line_frame_inv; assumption.
Qed.

Lemma resp_null_inv : forall buf u, resp_null_decode buf = Ok u -> buf = bs "_" ++ crlf.
Proof.
  intros buf u H. unfold resp_null_decode in H.
  destruct (validate_frame_data buf "_"%byte) as [[]| | |] eqn:Hv; try discriminate.
  cbn [bind] in H. destruct (length buf =? 3) eqn:El; [|discriminate].
  apply Nat.eqb_eq in El. destruct buf as [|x [|y [|z [|w rest']]]]; try discriminate.
  unfold validate_frame_data, at_ in Hv. cbn [length nth Nat.ltb Nat.leb Nat.sub negb] in Hv.
  destruct (byte_eqb x "_"%byte) eqn:E1; [|discriminate].
  destruct (byte_eqb y CR) eqn:E2; [|discriminate].
  destruct (byte_eqb z LF) eqn:E3; [|discriminate].
  apply byte_eqb_eq in E1, E2, E3. subst. reflexivity.
Qed.

Lemma bool_decode_inv : forall buf b, bool_decode buf = Ok b -> buf = frame_encode (Boolean b).
Proof.
  intros buf b H. unfold bool_decode in H.
  destruct (validate_frame_data buf "#"%byte) as [[]| | |] eqn:Hv; try discriminate.
  cbn [bind] in H. destruct (line_data buf) as [d| | |] eqn:Hd; try discriminate.
  cbn [bind] in H. pose proof (line_frame_inv _ _ _ Hv Hd) as ->.
  destruct (bytes_eqb d (bs "t")) eqn:Et;
    [apply bytes_eqb_eq in Et; subst d; injection H as <-; reflexivity|].
  destruct (bytes_eqb d (bs "f")) eqn:Ef; [|discriminate].
  apply bytes_eqb_eq in Ef; subst d; injection H as <-; reflexivity.
Qed.

(** What a successful decode of a one-line frame says about the input: a
    simple string, simple error or integer came from [prefix data CRLF] (the
    integer being the parse of [data]); a null bulk string, null array, null
    or boolean came from exactly its own encoding. *)
Theorem decode_one_line_frames : forall f64r buf f,
  decode f64r buf = Ok f ->
  match f with
  | SimpleString s => exists d, buf = "+"%byte :: d ++ crlf /\ s = from_utf8_lossy d
  | Error s => exists d, buf = "-"%byte :: d ++ crlf /\ s = from_utf8_lossy d
  | Integer z => exists d, buf = ":"%byte :: d ++ crlf /\ parse_i64 (from_utf8_lossy d) = Some z
  | NullBulkString | NullArray | Null | Boolean _ => buf = frame_encode f
  | _ => True
  end.
Proof.
  intros f64r buf f H. unfold decode in H.
  remember (length buf) as n eqn:En. clear En.
  destruct buf as [|b0 rest]; [discriminate|].
  cbn [frame_decode] in H.
  repeat match type of H with
  | (if ?c then _ else _) = _ => let E := fresh "E" in destruct c eqn:E
  | (match ?m with Ok _ => _ | Err _ => _ | Panic => _ | NoFuel => _ end) = _ =>
      let E := fresh "E" in destruct m as [?|[]| |] eqn:E
  end; try discriminate; bind_kill H; try discriminate;
  injection H as <-; cbn iota; try exact I.
  all: repeat match goal with
    | H : simple_string_decode _ = Ok _ |- _ => apply simple_decode_inv in H; exact H
    | H : simple_error_decode _ = Ok _ |- _ => apply error_decode_inv in H; exact H
    | H : integer_decode _ = Ok _ |- _ => apply integer_decode_inv in H; exact H
    | H : null_decode_minus1 _ _ = Ok _ |- _ => apply null_minus1_inv in H; exact H
    | H : resp_null_decode _ = Ok _ |- _ => apply resp_null_inv in H; exact H
    | H : bool_decode _ = Ok _ |- _ => apply bool_decode_inv in H; exact H
    end.
Qed.

Lemma decode_array_inv : forall f64r buf l,
  decode f64r buf = Ok (Array l) ->
  exists nth_len nth,
    read_count buf = Ok (nth_len, nth) /\
    decode_seq (frame_decode f64r (length buf)) (expect_length (length buf))
      buf nth (nth_len + 2) = Ok l.
Proof.
  intros f64r buf l H. unfold decode in H.
  remember (length buf) as n eqn:En.
  destruct buf as [|b0 rest]; [discriminate|].
  cbn [frame_decode] in H.
  repeat match type of H with
  | (if ?c then _ else _) = _ => destruct c
  | (match ?m with Ok _ => _ | Err _ => _ | Panic => _ | NoFuel => _ end) = _ =>
      destruct m as [?|[]| |]
  end; try discriminate; bind_kill H; try discriminate.
  all: injection H as <-; subst n; do 2 eexists; split; eassumption.
Qed.

(** A decoded array has exactly as many elements as its header declares. *)
Theorem decoded_array_count : forall f64r buf l,
  decode f64r buf = Ok (Array l) ->
  exists nth_len, read_count buf = Ok (nth_len, N.of_nat (length l)).
Proof.
  intros f64r buf l H. destruct (decode_array_inv _ _ _ H) as (nth_len & nth & Hc & Hs).
  apply decode_seq_length in Hs. exists nth_len. rewrite Hc, Hs, N2Nat.id. reflexivity.
Qed.

Lemma decode_map_inv : forall f64r buf m,
  decode f64r buf = Ok (Map m) ->
  exists nth_len nth,
    read_count buf = Ok (nth_len, nth) /\
    map_decode_loop (frame_decode f64r (length buf)) (expect_length (length buf))
      buf nth (nth_len + 2) = Ok m.
Proof.
  intros f64r buf m H. unfold decode in H.
  remember (length buf) as n eqn:En.
  destruct buf as [|b0 rest]; [discriminate|].
  cbn [frame_decode] in H.
  repeat match type of H with
  | (if ?c then _ else _) = _ => destruct c
  | (match ?m with Ok _ => _ | Err _ => _ | Panic => _ | NoFuel => _ end) = _ =>
      destruct m as [?|[]| |]
  end; try discriminate; bind_kill H; try discriminate.
  injection H as <-. subst n. do 2 eexists. split; eassumption.
Qed.

Lemma map_insert_length : forall {V} k (v : V) m, length (map_insert k v m) <= S (length m).
Proof.
  intros V k v m. induction m as [|[k' v'] m IH]; simpl; [lia|].
  destruct (bytes_cmp k k'); simpl; lia.
Qed.

Lemma map_decode_loop_inv : forall dec explen buf nth start m,
  map_decode_loop dec explen buf nth start = Ok m ->
  Sorted key_lt m /\ length m <= N.to_nat nth.
Proof.
  intros dec explen buf nth start m. cbv delta [map_decode_loop] beta.
  assert (Hacc : forall acc : list (list byte * Frame), Sorted key_lt acc ->
    forall k nth start m,
    (fix loop (k : nat) (n : N) (start : nat) (map : list (list byte * Frame))
       : Res RespError (list (list byte * Frame)) :=
     match k with
     | O => NoFuel
     | S k' =>
         if (n =? 0)%N then Ok map
         else
           rest <- slice_from buf start ;;
           key_len <- line_expect_length rest ;;
           kbuf <- slice buf start (start + key_len) ;;
           key <- simple_string_decode kbuf ;;
           rest' <- slice_from buf (start + key_len) ;;
           value_len <- explen rest' ;;
           vbuf <- slice buf (start + key_len) (start + key_len + value_len) ;;
           value <- dec vbuf ;;
           loop k' (n - 1)%N (start + (key_len + value_len)) (map_insert key value map)
     end) k nth start acc = Ok m ->
    Sorted key_lt m /\ length m <= length acc + N.to_nat nth).
  { intros acc Hs k. revert acc Hs. induction k as [|k IH]; intros acc Hs nth' start' m' H;
      cbn beta iota in H; [discriminate|].
    destruct (N.eqb_spec nth' 0) as [->|Hn].
    - injection H as <-. split; [exact Hs|lia].
    - bind_kill H. apply IH in H as [Hs' Hl]; [|apply map_insert_sorted; exact Hs].
      split; [exact Hs'|]. pose proof (map_insert_length a2 a6 acc). lia. }
  intros H. apply Hacc in H; [|constructor]. simpl in H. exact H.
Qed.

(** A decoded map has its entries strictly sorted by key, and no more
    entries than its header declares (a repeated key is kept once). *)
Theorem decoded_map_sorted : forall f64r buf m,
  decode f64r buf = Ok (Map m) ->
  StronglySorted key_lt m /\
  exists nth_len nth, read_count buf = Ok (nth_len, nth) /\ length m <= N.to_nat nth.
Proof.
  intros f64r buf m H. destruct (decode_map_inv _ _ _ H) as (nth_len & nth & Hc & Hs).
  apply map_decode_loop_inv in Hs as [Hs Hl]. split.
  - apply Sorted_StronglySorted; [exact key_lt_trans|exact Hs].
  - exists nth_len, nth. split; assumption.
Qed.


(** An input whose first byte is no RESP prefix is refused with
    [InvalidFrameType]; a known prefix with fewer than three bytes in all is
    [Incomplete]. *)
Theorem decode_short_or_unknown : forall f64r b0 rest,
  length rest < 2 \/ ~ In b0 resp_prefixes ->
  decode f64r (b0 :: rest)
  = Err (if existsb (byte_eqb b0) resp_prefixes then Incomplete else InvalidFrameType).
Proof.
  intros f64r b0 rest H. unfold decode. cbn [frame_decode].
  unfold resp_prefixes.
  change (bs "+-!:$_#,*%~") with ["+"%byte; "-"%byte; "!"%byte; ":"%byte; "$"%byte;
    "_"%byte; "#"%byte; ","%byte; "*"%byte; "%"%byte; "~"%byte] in *.
  cbn [existsb].
  repeat match goal with
  | |- context [if byte_eqb b0 ?c then _ else _] =>
      let E := fresh "E" in destruct (byte_eqb b0 c) eqn:E;
      [apply byte_eqb_eq in E; subst b0;
       (destruct H as [H|H]; [|exfalso; apply H; simpl; tauto]);
       destruct rest as [|y [|z rest]]; [reflexivity|reflexivity|simpl in H; lia]
      |]
  end.
  repeat match goal with E : byte_eqb b0 _ = false |- _ => rewrite E end. reflexivity.
Qed.

Lemma no_cr_no_crlf : forall d, Forall (fun b => b <> CR) d -> no_crlf d.
Proof.
  intros d H i [Hi _]. rewrite Forall_forall in H. apply nth_error_In in Hi.
  exact (H _ Hi eq_refl).
Qed.

Lemma no_crlf_cons : forall p d, p <> CR -> no_crlf d -> no_crlf (p :: d).
Proof.
  intros p d Hp Hd [|i] [H1 H2]; cbn [nth_error] in H1, H2.
  - injection H1 as ->. contradiction.
  - exact (Hd i (conj H1 H2)).
Qed.

Lemma line_crlf_positions : forall p d, p <> CR -> no_crlf d ->
  crlf_positions (p :: d ++ crlf) 0 = [S (length d)].
Proof.
  intros p d Hp Hd. change (p :: d ++ crlf) with ((p :: d) ++ crlf).
  rewrite crlf_positions_app by (right; right; discriminate).
  rewrite crlf_positions_none by (apply no_crlf_cons; assumption). reflexivity.
Qed.

Lemma line_expect_length_frame : forall p d, p <> CR -> no_crlf d ->
  line_expect_length (p :: d ++ crlf) = Ok (length (p :: d ++ crlf)).
Proof.
  intros p d Hp Hd. unfold line_expect_length.
  rewrite find_crlf_eq by discriminate. rewrite line_crlf_positions by assumption.
  cbn [Nat.eqb Nat.sub nth_error ok_or bind]. f_equal.
  cbn [length]. rewrite length_app. cbn [length crlf]. lia.
Qed.

Lemma int_text_no_cr : forall z, Forall (fun b => b <> CR) (int_text z).
Proof.
  intros z. unfold int_text, dec_Z.
  assert (HD : forall n, Forall (fun b => b <> CR) (dec_N n))
    by (intros n; eapply Forall_impl; [exact digit_not_cr|apply dec_N_digits]).
  destruct (z <? 0)%Z; cbn [app]; repeat constructor; try discriminate; apply HD.
Qed.

(** [expect_length] of the encoding of every one-line frame (simple string
    or error without CRLF in its text, integer, the nulls, booleans) is the
    length of the whole encoding. *)
Theorem line_frames_expected_length : forall s z f,
  no_crlf s ->
  In f [SimpleString s; Error s; Integer z; NullBulkString; NullArray; Null;
        Boolean true; Boolean false] ->
  expected_length (frame_encode f) = Ok (length (frame_encode f)).
Proof.
  intros s z f Hs Hf.
  destruct Hf as [<-|[<-|[<-|[<-|[<-|[<-|[<-|[<-|[]]]]]]]]]; try reflexivity.
  - change (frame_encode (SimpleString s)) with (x2b :: s ++ crlf).
    unfold expected_length. cbn [expect_length].
    replace (length (x2b :: s ++ crlf) <? 3) with false
      by (symmetry; apply Nat.ltb_ge; cbn [length]; rewrite length_app; cbn [length crlf]; lia).
    unfold at_. cbn [nth]. cbn -[line_expect_length crlf].
    apply line_expect_length_frame; [discriminate|exact Hs].
  - change (frame_encode (Error s)) with (x2d :: s ++ crlf).
    unfold expected_length. cbn [expect_length].
    replace (length (x2d :: s ++ crlf) <? 3) with false
      by (symmetry; apply Nat.ltb_ge; cbn [length]; rewrite length_app; cbn [length crlf]; lia).
    unfold at_. cbn [nth]. cbn -[line_expect_length crlf].
    apply line_expect_length_frame; [discriminate|exact Hs].
  - rewrite encode_integer.
    unfold expected_length. cbn [expect_length].
    replace (length (x3a :: int_text z ++ crlf) <? 3) with false
      by (symmetry; apply Nat.ltb_ge; cbn [length]; rewrite length_app; cbn [length crlf]; lia).
    unfold at_. cbn [nth]. cbn -[line_expect_length crlf int_text].
    apply line_expect_length_frame; [discriminate|apply no_cr_no_crlf, int_text_no_cr].
Qed.

Lemma validate_single : forall c r k n,
  validate_command (BulkString c :: r) [k] n = Ok tt \/
  exists e, validate_command (BulkString c :: r) [k] n = Err e.
Proof.
  intros c r k n. unfold validate_command, usize_sub. cbn [length nth_error].
  destruct (negb (S (length r) =? 1 + n)).
  - right. replace (S (length r) <? 1) with false by (symmetry; apply Nat.ltb_ge; lia).
    eexists. reflexivity.
  - destruct (negb (bytes_eqb (to_ascii_lowercase c) k)); [right; eexists; reflexivity|left; reflexivity].
Qed.

Ltac no_panic :=
  repeat match goal with
  | |- context [match ?x with _ => _ end] => destruct x
  | |- context [if ?x then _ else _] => destruct x
  end; cbn [bind]; try discriminate.

(** Parsing a command from any frame never panics: it either gives a
    command or an error. *)
Theorem command_try_from_never_panics : forall f, command_try_from f <> Panic.
Proof.
  intros [| | | | | |arr| | | | | |]; try discriminate.
  unfold command_try_from, command_try_from_array.
  destruct arr as [|[| | | |cmd| | | | | | | |] rest]; try discriminate.
  assert (V : forall k n, validate_command (BulkString cmd :: rest) [k] n = Ok tt \/
                         exists e, validate_command (BulkString cmd :: rest) [k] n = Err e)
    by (intros; apply validate_single).
  destruct (bytes_eqb cmd (bs "get")); [|destruct (bytes_eqb cmd (bs "set"));
    [|destruct (bytes_eqb cmd (bs "hget")); [|destruct (bytes_eqb cmd (bs "hset"));
      [|destruct (bytes_eqb cmd (bs "hgetall")); [|discriminate]]]]].
  - unfold get_try_from. destruct (V (bs "get") 1) as [->|[e ->]]; cbn [bind]; [|discriminate].
    unfold extract_args, from_utf8. cbn [skipn]. no_panic.
  - unfold set_try_from. destruct (V (bs "set") 2) as [->|[e ->]]; cbn [bind]; [|discriminate].
    unfold extract_args, from_utf8. cbn [skipn]. no_panic.
  - unfold hget_try_from. destruct (V (bs "hget") 2) as [->|[e ->]]; cbn [bind]; [|discriminate].
    unfold extract_args, from_utf8. cbn [skipn]. no_panic.
  - unfold hset_try_from. destruct (V (bs "hset") 3) as [->|[e ->]]; cbn [bind]; [|discriminate].
    unfold extract_args, from_utf8. cbn [skipn]. no_panic.
  - unfold hgetall_try_from. destruct (V (bs "hgetall") 1) as [->|[e ->]]; cbn [bind]; [|discriminate].
    unfold extract_args, from_utf8. cbn [skipn]. no_panic.
Qed.

Lemma hmget_fields_loop_no_panic : forall args, hmget_fields_loop args <> Panic.
Proof.
  induction args as [|a args IH]; [discriminate|].
  destruct a; cbn [hmget_fields_loop]; try discriminate.
  unfold from_utf8. destruct (utf8_valid b); cbn [bind]; [|discriminate].
  destruct (hmget_fields_loop args); cbn [bind]; congruence.
Qed.

(** [HMGet::try_from] panics exactly on an empty argument array (it
    computes [arr.len() - 1] before any check, which underflows). *)
Theorem hmget_try_from_panics_iff_empty : forall arr, hmget_try_from arr = Panic <-> arr = [].
Proof.
  intros arr. split; [|intros ->; reflexivity].
  destruct arr as [|x r]; [reflexivity|]. intros H. exfalso. revert H.
  unfold hmget_try_from, usize_sub. cbn [length].
  replace (S (length r) <? 1) with false by (symmetry; apply Nat.ltb_ge; lia).
  cbn [bind]. replace (S (length r) - 1) with (length r) by lia.
  unfold validate_command. cbn [length nth_error].
  replace (S (length r) =? 1 + length r) with true by (symmetry; apply Nat.eqb_eq; lia).
  cbn [negb]. destruct x; try discriminate.
  destruct (negb (bytes_eqb (to_ascii_lowercase b) (bs "hmget"))); [discriminate|].
  cbn [bind]. unfold extract_args. cbn [skipn].
  destruct r as [|[| | | |key| | | | | | | |] rest]; try discriminate.
  unfold from_utf8. destruct (utf8_valid key); cbn [bind]; [|discriminate].
  pose proof (hmget_fields_loop_no_panic rest).
  destruct (hmget_fields_loop rest); cbn [bind]; congruence.
Qed.


(** Well-formed GET, SET, HGET, HSET and HGETALL arrays, with a UTF-8 key
    (and field), parse to the matching command. *)
Theorem commands_parse : forall k fld v,
  utf8_valid k = true -> utf8_valid fld = true ->
  command_try_from (Array [BulkString (bs "get"); BulkString k]) = Ok (CmdGet k) /\
  command_try_from (Array [BulkString (bs "set"); BulkString k; v]) = Ok (CmdSet k v) /\
  command_try_from (Array [BulkString (bs "hget"); BulkString k; BulkString fld])
    = Ok (CmdHGet k fld) /\
  command_try_from (Array [BulkString (bs "hset"); BulkString k; BulkString fld; v])
    = Ok (CmdHSet k fld v) /\
  command_try_from (Array [BulkString (bs "hgetall"); BulkString k]) = Ok (CmdHGetAll k false).
Proof.
  intros k fld v Hk Hf. unfold from_utf8.
  repeat split; cbn; unfold from_utf8; rewrite ?Hk, ?Hf; reflexivity.
Qed.

(** For GET, SET, HGET, HSET and HGETALL, a wrong number of arguments is
    refused with [InvalidArguments]. *)
Theorem commands_wrong_arity : forall verb n args,
  In (verb, n) command_arity -> length args <> n ->
  command_try_from (Array (BulkString (bs verb) :: args)) = Err InvalidArguments.
Proof.
  intros verb n args Hin Hn.
  assert (V : forall k, validate_command (BulkString (bs verb) :: args) [k] n = Err InvalidArguments).
  { intros k. unfold validate_command, usize_sub. cbn [length].
    replace (S (length args) =? 1 + n) with false by (symmetry; apply Nat.eqb_neq; lia).
    replace (S (length args) <? 1) with false by (symmetry; apply Nat.ltb_ge; lia).
    reflexivity. }
  destruct Hin as [H|[H|[H|[H|[H|[]]]]]]; injection H as <- <-;
    cbn -[validate_command] in V |- *; unfold get_try_from, set_try_from, hget_try_from, hset_try_from, hgetall_try_from;
    rewrite V; reflexivity.
Qed.

(** For GET, SET, HGET, HSET and HGETALL with the right number of
    arguments, a key that is not valid UTF-8 is refused with [Utf8Error]. *)
Theorem commands_key_not_utf8 : forall verb n k rest,
  In (verb, n) command_arity -> length rest = n - 1 -> utf8_valid k = false ->
  command_try_from (Array (BulkString (bs verb) :: BulkString k :: rest)) = Err Utf8Error.
Proof.
  intros verb n k rest Hin Hn Hk.
  assert (V : forall key, bytes_eqb (to_ascii_lowercase (bs verb)) key = true ->
    validate_command (BulkString (bs verb) :: BulkString k :: rest) [key] n = Ok tt).
  { intros key Hkey. unfold validate_command. cbn [length nth_error].
    destruct Hin as [H|[H|[H|[H|[H|[]]]]]]; injection H as <- <-;
      (replace (S (S (length rest)) =? _) with true by (symmetry; apply Nat.eqb_eq; cbn in Hn |- *; lia));
      cbn [negb]; rewrite Hkey; reflexivity. }
  destruct Hin as [H|[H|[H|[H|[H|[]]]]]]; injection H as <- <-;
    match goal with |- context [BulkString (bs ?w)] => specialize (V (bs w) eq_refl) end;
    unfold command_try_from, command_try_from_array, get_try_from, set_try_from,
      hget_try_from, hset_try_from, hgetall_try_from;
    cbn -[validate_command] in V |- *;
    rewrite V; cbn in Hn |- *; rewrite ?Hn; cbn; unfold from_utf8; rewrite Hk; reflexivity.
Qed.




Lemma assoc_lookup_map_insert : forall {V} k k' (v : V) m,
  assoc_lookup k' (map_insert k v m) = if bytes_eqb k' k then Some v else assoc_lookup k' m.
Proof.
  intros V k k' v m. induction m as [|[k0 v0] m IH]; cbn [map_insert assoc_lookup]; [reflexivity|].
  destruct (bytes_cmp k k0) eqn:E; cbn [assoc_lookup].
  - apply bytes_cmp_eq in E. subst k0. destruct (bytes_eqb k' k); reflexivity.
  - reflexivity.
  - rewrite IH. destruct (bytes_eqb k' k0) eqn:E1; [|reflexivity].
    apply bytes_eqb_eq in E1. subst k0.
    destruct (bytes_eqb k' k) eqn:E2; [|reflexivity].
    apply bytes_eqb_eq in E2. subst k. rewrite bytes_cmp_refl in E. discriminate.
Qed.

(** A GET after a SET (an HGET after an HSET) returns the written value when
    the key (and field) match, and what it returned before otherwise; the
    backend is modelled from the spec. *)
Theorem write_then_read : forall be k f v k' f',
  fst (execute (CmdGet k') (snd (execute (CmdSet k v) be)))
    = (if bytes_eqb k' k then v else fst (execute (CmdGet k') be)) /\
  fst (execute (CmdHGet k' f') (snd (execute (CmdHSet k f v) be)))
    = (if bytes_eqb k' k && bytes_eqb f' f then v else fst (execute (CmdHGet k' f') be)).
Proof.
  intros be k f v k' f'. split.
  - cbn [execute fst snd]. unfold backend_get, backend_set. cbn [bk_map].
    rewrite assoc_lookup_map_insert. destruct (bytes_eqb k' k); reflexivity.
  - cbn [execute fst snd]. unfold backend_hget, backend_hset. cbn [bk_hmap].
    rewrite assoc_lookup_map_insert. destruct (bytes_eqb k' k) eqn:Ek; cbn [andb]; [|reflexivity].
    apply bytes_eqb_eq in Ek. subst k'.
    rewrite assoc_lookup_map_insert. destruct (bytes_eqb f' f); [reflexivity|].
    destruct (assoc_lookup k (bk_hmap be)); reflexivity.
Qed.




Lemma encode_bulk_ends : forall b, exists t, frame_encode (BulkString b) = t ++ crlf.
Proof.
  intros b. exists (x24 :: dec_nat (length b) ++ crlf ++ from_utf8_lossy b).
  cbn [frame_encode]. change (bs "$") with [x24]. cbn [app]. rewrite <- !app_assoc. reflexivity.
Qed.

Lemma bulks_end_crlf : forall bl,
  exists t, crlf ++ flat_map frame_encode (map BulkString bl) = t ++ crlf.
Proof.
  assert (H : forall bl, flat_map frame_encode (map BulkString bl) = [] \/
                exists t, flat_map frame_encode (map BulkString bl) = t ++ crlf).
  { induction bl as [|b bl IH]; [left; reflexivity|right].
    cbn [map flat_map]. destruct (encode_bulk_ends b) as [t Ht]. destruct IH as [->|[t' ->]].
    - exists t. rewrite app_nil_r. exact Ht.
    - exists (frame_encode (BulkString b) ++ t'). rewrite app_assoc. reflexivity. }
  intros bl. destruct (H bl) as [->|[t ->]].
  - exists []. reflexivity.
  - exists (crlf ++ t). rewrite app_assoc. reflexivity.
Qed.

Lemma bulk_ok_lossy : forall b, bulk_ok b -> from_utf8_lossy b = b.
Proof. intros b [Hu _]. apply from_utf8_lossy_valid. exact Hu. Qed.

Lemma decode_seq_bulks : forall f64r fuel buf bl start k,
  skipn start buf = flat_map frame_encode (map BulkString bl) ->
  Forall bulk_ok bl -> (N.of_nat (length buf) <= usize_max)%N -> length bl < k ->
  (fix loop (k : nat) (n : N) (start : nat) : Res RespError (list Frame) :=
     match k with
     | O => NoFuel
     | S k' =>
         if (n =? 0)%N then Ok []
         else
           rest <- slice_from buf start ;;
           frame_len <- expect_length (S fuel) rest ;;
           piece <- slice buf start (start + frame_len) ;;
           frame <- frame_decode f64r (S fuel) piece ;;
           frames <- loop k' (n - 1)%N (start + frame_len) ;;
           Ok (frame :: frames)
     end) k (N.of_nat (length bl)) start = Ok (map BulkString bl).
Proof.
  intros f64r fuel buf bl. induction bl as [|b bl IH]; intros start k Hs Hok Hmax Hk;
    (destruct k as [|k]; [cbn [length] in Hk; lia|]); cbn beta iota; [reflexivity|].
  apply Forall_cons_iff in Hok as [Hb Hok].
  assert (Hst : start <= length buf).
  { destruct (Nat.le_gt_cases start (length buf)) as [H|H]; [exact H|].
    rewrite skipn_all2 in Hs by lia. cbn [map flat_map] in Hs.
    destruct (encode_bulk_ends b) as [t Ht]. rewrite Ht in Hs.
    destruct t; discriminate. }
  replace (N.of_nat (length (b :: bl)) =? 0)%N with false by (symmetry; apply N.eqb_neq; cbn [length]; lia).
  unfold slice_from. replace (start <=? length buf) with true by (symmetry; apply Nat.leb_le; lia).
  cbn [bind]. rewrite Hs. cbn [map flat_map].
  assert (Hc : no_crlf (from_utf8_lossy b)) by (rewrite bulk_ok_lossy by exact Hb; apply Hb).
  rewrite bulk_expect_length_suffix by exact Hc. cbn [bind].
  assert (Hlb : start + length (frame_encode (BulkString b)) <= length buf).
  { rewrite <- (firstn_skipn start buf), length_app, Hs. cbn [map flat_map].
    rewrite length_app, length_firstn. lia. }
  rewrite slice_ok by lia.
  replace (start + length (frame_encode (BulkString b)) - start)
    with (length (frame_encode (BulkString b))) by lia.
  rewrite Hs. cbn [map flat_map]. rewrite firstn_app, firstn_all, Nat.sub_diag, firstn_O, app_nil_r.
  cbn [bind].
  rewrite (proj1 (bulk_frame_decode f64r fuel b (proj1 Hb) (proj2 Hb) ltac:(lia))). cbn [bind].
  replace (N.of_nat (length (b :: bl)) - 1)%N with (N.of_nat (length bl))
    by (cbn [length]; lia).
  rewrite IH.
  - reflexivity.
  - rewrite Nat.add_comm, <- skipn_skipn, Hs. cbn [map flat_map]. rewrite skipn_app, skipn_all, Nat.sub_diag.
    reflexivity.
  - exact Hok.
  - exact Hmax.
  - cbn [length] in Hk. lia.
Qed.

Lemma bulks_length : forall bl, length bl <= length (flat_map frame_encode (map BulkString bl)).
Proof.
  induction bl as [|b bl IH]; [reflexivity|]. cbn [map flat_map length].
  destruct (encode_bulk_ends b) as [t Ht]. rewrite length_app, Ht, length_app.
  cbn [length crlf]. lia.
Qed.

Lemma skipn_bulks_bound : forall buf start b bl,
  skipn start buf = flat_map frame_encode (map BulkString (b :: bl)) ->
  start + length (frame_encode (BulkString b)) <= length buf.
Proof.
  intros buf start b bl Hs.
  destruct (Nat.le_gt_cases start (length buf)) as [H|H].
  - rewrite <- (firstn_skipn start buf), length_app, Hs. cbn [map flat_map].
    rewrite length_app, length_firstn. lia.
  - rewrite skipn_all2 in Hs by lia. cbn [map flat_map] in Hs.
    destruct (encode_bulk_ends b) as [t Ht]. rewrite Ht in Hs. destruct t; discriminate.
Qed.

Lemma seq_expect_bulks : forall fuel buf bl total k,
  skipn total buf = flat_map frame_encode (map BulkString bl) ->
  Forall bulk_ok bl -> length bl < k ->
  (fix loop (k : nat) (n : N) (total : nat) : Res RespError nat :=
     match k with
     | O => NoFuel
     | S k' =>
         if (n =? 0)%N then Ok total
         else
           rest <- slice_from buf total ;;
           frame_len <- expect_length (S fuel) rest ;;
           loop k' (n - 1)%N (total + frame_len)
     end) k (N.of_nat (length bl)) total
  = Ok (total + length (flat_map frame_encode (map BulkString bl))).
Proof.
  intros fuel buf bl. induction bl as [|b bl IH]; intros total k Hs Hok Hk;
    (destruct k as [|k]; [cbn [length] in Hk; lia|]); cbn beta iota.
  - rewrite Nat.add_0_r. reflexivity.
  - apply Forall_cons_iff in Hok as [Hb Hok].
    pose proof (skipn_bulks_bound buf total b bl Hs) as Hlb.
    replace (N.of_nat (length (b :: bl)) =? 0)%N with false
      by (symmetry; apply N.eqb_neq; cbn [length]; lia).
    unfold slice_from. replace (total <=? length buf) with true by (symmetry; apply Nat.leb_le; lia).
    cbn [bind]. rewrite Hs. cbn [map flat_map].
    assert (Hc : no_crlf (from_utf8_lossy b)) by (rewrite bulk_ok_lossy by exact Hb; apply Hb).
    rewrite bulk_expect_length_suffix by exact Hc. cbn [bind].
    replace (N.of_nat (length (b :: bl)) - 1)%N with (N.of_nat (length bl))
      by (cbn [length]; lia).
    rewrite IH.
    + rewrite length_app, Nat.add_assoc. reflexivity.
    + rewrite Nat.add_comm, <- skipn_skipn, Hs. cbn [map flat_map].
      rewrite skipn_app, skipn_all, Nat.sub_diag. reflexivity.
    + exact Hok.
    + cbn [length] in Hk. lia.
Qed.

Lemma header_crlf_first : forall p D E, p <> CR -> Forall is_digit D ->
  nth_error (crlf_positions (p :: D ++ crlf ++ E) 0) 0 = Some (S (length D)).
Proof.
  intros p D E Hp HD.
  change (p :: D ++ crlf ++ E) with ((p :: D) ++ crlf ++ E).
  rewrite crlf_positions_app by (right; left; apply last_not_cr; assumption).
  rewrite crlf_positions_no_cr by (apply digits_not_cr; assumption).
  rewrite crlf_positions_app by (right; left; discriminate).
  rewrite crlf_positions_crlf. reflexivity.
Qed.

Lemma read_count_frame : forall p D E n, p <> CR -> Forall is_digit D ->
  parse_usize (from_utf8_lossy D) = Some n ->
  read_count (p :: D ++ crlf ++ E) = Ok (S (length D), n).
Proof.
  intros p D E n Hp HD HP. unfold read_count.
  rewrite find_crlf_eq by discriminate. cbn [Nat.eqb Nat.sub].
  rewrite header_crlf_first by assumption. cbn [ok_or bind].
  rewrite slice_ok by (cbn [length]; rewrite !length_app; lia).
  cbn [skipn]. replace (S (length D) - 1) with (length D) by lia.
  rewrite firstn_app, firstn_all, Nat.sub_diag, firstn_O, app_nil_r. cbn [bind].
  rewrite HP. reflexivity.
Qed.

Lemma array_frame_facts : forall bl,
  Forall bulk_ok bl ->
  (N.of_nat (length (frame_encode (Array (map BulkString bl)))) <= usize_max)%N ->
  let D := dec_nat (length bl) in
  let E := flat_map frame_encode (map BulkString bl) in
  frame_encode (Array (map BulkString bl)) = x2a :: D ++ crlf ++ E /\
  Forall is_digit D /\ D <> [] /\
  parse_usize (from_utf8_lossy D) = Some (N.of_nat (length bl)) /\
  exists t, x2a :: D ++ crlf ++ E = x2a :: (D ++ t) ++ crlf.
Proof.
  intros bl Hok Hlen D E.
  assert (Henc : frame_encode (Array (map BulkString bl)) = x2a :: D ++ crlf ++ E)
    by (cbn [frame_encode]; rewrite length_map; reflexivity).
  split; [exact Henc|]. split; [apply dec_N_digits|]. split; [apply dec_nat_ne|]. split.
  - subst D. unfold dec_nat. rewrite dec_N_lossy. apply parse_usize_dec.
    rewrite Henc in Hlen. cbn [length] in Hlen. rewrite !length_app in Hlen.
    pose proof (bulks_length bl). fold E in H. lia.
  - destruct (bulks_end_crlf bl) as [t Ht]. exists t. fold E in Ht.
    rewrite Ht, app_assoc. reflexivity.
Qed.

Lemma array_frame_decode : forall f64r m bl,
  Forall bulk_ok bl ->
  (N.of_nat (length (frame_encode (Array (map BulkString bl)))) <= usize_max)%N ->
  frame_decode f64r (S (S m)) (frame_encode (Array (map BulkString bl)))
  = Ok (Array (map BulkString bl)).
Proof.
  intros f64r m bl Hok Hlen.
  destruct (array_frame_facts bl Hok Hlen) as (Henc & HD & Hne & HP & t & Ht).
  rewrite Henc in *.
  assert (Hsk : skipn (S (length (dec_nat (length bl))) + 2)
                  (x2a :: dec_nat (length bl) ++ crlf ++ flat_map frame_encode (map BulkString bl))
                = flat_map frame_encode (map BulkString bl)).
  { replace (x2a :: dec_nat (length bl) ++ crlf ++ flat_map frame_encode (map BulkString bl))
      with ((x2a :: dec_nat (length bl) ++ crlf) ++ flat_map frame_encode (map BulkString bl))
      by (cbn [app]; rewrite <- app_assoc; reflexivity).
    replace (S (length (dec_nat (length bl))) + 2)
      with (length (x2a :: dec_nat (length bl) ++ crlf))
      by (cbn [length]; rewrite length_app; reflexivity).
    rewrite skipn_app, skipn_all, Nat.sub_diag. reflexivity. }
  pose proof (bulks_length bl) as Hbl.
  remember (flat_map frame_encode (map BulkString bl)) as E eqn:HE.
  remember (dec_nat (length bl)) as D eqn:HDdef. clear HDdef.
  assert (Hnull : null_decode_minus1 x2a (x2a :: D ++ crlf ++ E) = Err Invalid).
  { unfold null_decode_minus1. rewrite Ht, validate_line_frame. cbn [bind].
    rewrite line_data_frame. cbn [bind]. rewrite not_minus1 by assumption. reflexivity. }
  assert (Hval : validate_frame_data (x2a :: D ++ crlf ++ E) x2a = Ok tt)
    by (rewrite Ht; apply validate_line_frame).
  pose proof (read_count_frame x2a D E _ ltac:(discriminate) HD HP) as Hrc.
  remember (S m) as fm eqn:Hfm.
  with_strategy opaque [decode_seq]
    cbn -[null_decode_minus1 validate_frame_data read_count decode_seq crlf].
  change "*"%byte with x2a. rewrite Hnull, Hval. cbn [bind]. rewrite Hrc. cbn [bind].
  subst E fm. cbv delta [decode_seq] beta.
  rewrite (decode_seq_bulks f64r m _ bl _ _ Hsk Hok).
  - reflexivity.
  - exact Hlen.
  - cbn [length]. rewrite !length_app. cbn [length crlf]. lia.
Qed.

Lemma array_expect_length : forall m bl,
  Forall bulk_ok bl ->
  (N.of_nat (length (frame_encode (Array (map BulkString bl)))) <= usize_max)%N ->
  expect_length (S (S m)) (frame_encode (Array (map BulkString bl)))
  = Ok (length (frame_encode (Array (map BulkString bl)))).
Proof.
  intros m bl Hok Hlen.
  destruct (array_frame_facts bl Hok Hlen) as (Henc & HD & Hne & HP & t & Ht).
  rewrite Henc in *.
  assert (Hsk : skipn (S (length (dec_nat (length bl))) + 2)
                  (x2a :: dec_nat (length bl) ++ crlf ++ flat_map frame_encode (map BulkString bl))
                = flat_map frame_encode (map BulkString bl)).
  { replace (x2a :: dec_nat (length bl) ++ crlf ++ flat_map frame_encode (map BulkString bl))
      with ((x2a :: dec_nat (length bl) ++ crlf) ++ flat_map frame_encode (map BulkString bl))
      by (cbn [app]; rewrite <- app_assoc; reflexivity).
    replace (S (length (dec_nat (length bl))) + 2)
      with (length (x2a :: dec_nat (length bl) ++ crlf))
      by (cbn [length]; rewrite length_app; reflexivity).
    rewrite skipn_app, skipn_all, Nat.sub_diag. reflexivity. }
  pose proof (bulks_length bl) as Hbl.
  remember (flat_map frame_encode (map BulkString bl)) as E eqn:HE.
  remember (dec_nat (length bl)) as D eqn:HDdef. clear HDdef.
  pose proof (read_count_frame x2a D E _ ltac:(discriminate) HD HP) as Hrc.
  cbn [expect_length].
  replace (length (x2a :: D ++ crlf ++ E) <? 3) with false
    by (symmetry; apply Nat.ltb_ge; cbn [length]; rewrite !length_app; cbn [length crlf]; lia).
  unfold at_; cbn [nth skipn].
  destruct D as [|d ds]; [contradiction|]. apply Forall_cons_iff in HD as HD'. destruct HD' as [Hd _].
  change (bs "-1") with [x2d; x31]. cbn [app firstn bytes_eqb].
  rewrite (digit_neq d x2d Hd) by (unfold is_digit; simpl; lia).
  remember (S m) as fm eqn:Hfm.
  with_strategy opaque [seq_expect_length read_count]
    cbn -[seq_expect_length read_count crlf].
  change (x2a :: (d :: ds) ++ crlf ++ E) with (x2a :: d :: ds ++ crlf ++ E) in Hrc.
  rewrite Hrc. cbn [bind].
  subst E fm. cbv delta [seq_expect_length] beta.
  rewrite (seq_expect_bulks m _ bl _ _ Hsk Hok).
  - f_equal. cbn [length]. rewrite !length_app. cbn [length crlf]. lia.
  - cbn [length]. rewrite !length_app. cbn [length crlf]. lia.
Qed.

(** An array of bulk strings, each valid UTF-8 without CRLF, decodes back
    to itself, and [expect_length] of its encoding is the whole encoding. *)
Theorem bulk_array_roundtrip : forall f64r bl,
  Forall bulk_ok bl ->
  (N.of_nat (length (frame_encode (Array (map BulkString bl)))) <= usize_max)%N ->
  decode f64r (frame_encode (Array (map BulkString bl))) = Ok (Array (map BulkString bl)) /\
  expected_length (frame_encode (Array (map BulkString bl)))
  = Ok (length (frame_encode (Array (map BulkString bl)))).
Proof.
  intros f64r bl Hok Hlen. unfold decode, expected_length.
  assert (Hd : exists m, length (frame_encode (Array (map BulkString bl))) = S m)
    by (cbn [frame_encode]; eexists; reflexivity).
  destruct Hd as [m Hm]. split.
  - rewrite Hm. apply array_frame_decode; assumption.
  - pose proof (array_expect_length m bl Hok Hlen) as H. rewrite <- Hm in H. exact H.
Qed.

(** ** Instances of the properties above *)

Lemma no_crlf_of_positions : forall b, crlf_positions b 0 = [] -> no_crlf b.
Proof.
  intros b H i Hi.
  assert (Hin : In i (crlf_positions b 0))
    by (apply crlf_positions_In; exists i; split; [reflexivity|exact Hi]).
  rewrite H in Hin. contradiction.
Qed.

Lemma simple_frames_roundtrip_witness :
  utf8_valid (bs "OK") = true /\
  decode (fun _ => None) (frame_encode (SimpleString (bs "OK"))) = Ok (SimpleString (bs "OK")) /\
  decode (fun _ => None) (frame_encode (Error (bs "OK"))) = Ok (Error (bs "OK")).
Proof.
  assert (H : utf8_valid (bs "OK") = true) by reflexivity.
  split; [exact H|exact (simple_frames_roundtrip _ _ H)].
Defined.

Lemma integer_roundtrip_witness :
  (i64_min <= -42 <= i64_max)%Z /\
  decode (fun _ => None) (frame_encode (Integer (-42))) = Ok (Integer (-42)).
Proof.
  assert (H : (i64_min <= -42 <= i64_max)%Z) by (unfold i64_min, i64_max; lia).
  split; [exact H|exact (integer_roundtrip _ _ H)].
Defined.

Lemma bulk_expected_length_witness :
  no_crlf (from_utf8_lossy (bs "hello")) /\
  expected_length (frame_encode (BulkString (bs "hello")))
    = Ok (length (frame_encode (BulkString (bs "hello")))) /\
  expected_length (frame_encode (BulkError (bs "hello")))
    = Ok (length (frame_encode (BulkError (bs "hello")))).
Proof.
  assert (H : no_crlf (from_utf8_lossy (bs "hello")))
    by (apply no_crlf_of_positions; vm_compute; reflexivity).
  split; [exact H|exact (bulk_expected_length _ H)].
Defined.

Lemma bulk_roundtrip_witness :
  (utf8_valid (bs "hello") = true /\ no_crlf (bs "hello") /\
   (N.of_nat (length (frame_encode (BulkString (bs "hello")))) <= usize_max)%N) /\
  decode (fun _ => None) (frame_encode (BulkString (bs "hello"))) = Ok (BulkString (bs "hello")) /\
  decode (fun _ => None) (frame_encode (BulkError (bs "hello"))) = Ok (BulkError (bs "hello")).
Proof.
  assert (H1 : utf8_valid (bs "hello") = true) by reflexivity.
  assert (H2 : no_crlf (bs "hello")) by (apply no_crlf_of_positions; reflexivity).
  assert (H3 : (N.of_nat (length (frame_encode (BulkString (bs "hello")))) <= usize_max)%N)
    by (apply N.leb_le; vm_compute; reflexivity).
  split; [split; [exact H1|split; [exact H2|exact H3]]|exact (bulk_roundtrip _ _ H1 H2 H3)].
Defined.

Lemma decode_one_line_frames_witness :
  decode (fun _ => None) (bs ":42" ++ crlf) = Ok (Integer 42) /\
  exists d, bs ":42" ++ crlf = ":"%byte :: d ++ crlf /\ parse_i64 (from_utf8_lossy d) = Some 42%Z.
Proof.
  assert (H : decode (fun _ => None) (bs ":42" ++ crlf) = Ok (Integer 42)) by (vm_compute; reflexivity).
  split; [exact H|exact (decode_one_line_frames _ _ _ H)].
Defined.

Lemma decoded_array_count_witness :
  decode (fun _ => None) (frame_encode (Array [Integer 1; Integer 2])) = Ok (Array [Integer 1; Integer 2]) /\
  exists nth_len, read_count (frame_encode (Array [Integer 1; Integer 2]))
                  = Ok (nth_len, N.of_nat (length [Integer 1; Integer 2])).
Proof.
  assert (H : decode (fun _ => None) (frame_encode (Array [Integer 1; Integer 2]))
              = Ok (Array [Integer 1; Integer 2])) by (vm_compute; reflexivity).
  split; [exact H|exact (decoded_array_count _ _ _ H)].
Defined.

Lemma decoded_map_sorted_witness :
  let w := bs "%2" ++ crlf ++ bs "+b" ++ crlf ++ bs ":1" ++ crlf ++ bs "+a" ++ crlf ++ bs ":2" ++ crlf in
  let m := [(bs "a", Integer 2); (bs "b", Integer 1)] in
  decode (fun _ => None) w = Ok (Map m) /\
  StronglySorted key_lt m /\
  exists nth_len nth, read_count w = Ok (nth_len, nth) /\ length m <= N.to_nat nth.
Proof.
  intros w m.
  assert (H : decode (fun _ => None) w = Ok (Map m)) by (vm_compute; reflexivity).
  split; [exact H|exact (decoded_map_sorted _ _ _ H)].
Defined.

Lemma decode_short_or_unknown_witness :
  (length [CR] < 2 \/ ~ In "+"%byte resp_prefixes) /\
  decode (fun _ => None) ["+"%byte; CR]
  = Err (if existsb (byte_eqb "+"%byte) resp_prefixes then Incomplete else InvalidFrameType).
Proof.
  assert (H : length [CR] < 2 \/ ~ In "+"%byte resp_prefixes) by (left; cbn; lia).
  split; [exact H|exact (decode_short_or_unknown _ _ _ H)].
Defined.

Lemma line_frames_expected_length_witness :
  (no_crlf (bs "OK") /\
   In (Integer 7) [SimpleString (bs "OK"); Error (bs "OK"); Integer 7; NullBulkString; NullArray;
                   Null; Boolean true; Boolean false]) /\
  expected_length (frame_encode (Integer 7)) = Ok (length (frame_encode (Integer 7))).
Proof.
  assert (H1 : no_crlf (bs "OK")) by (apply no_crlf_of_positions; reflexivity).
  assert (H2 : In (Integer 7) [SimpleString (bs "OK"); Error (bs "OK"); Integer 7; NullBulkString;
                               NullArray; Null; Boolean true; Boolean false])
    by (right; right; left; reflexivity).
  split; [split; [exact H1|exact H2]|exact (line_frames_expected_length _ _ _ H1 H2)].
Defined.

Lemma commands_parse_witness :
  (utf8_valid (bs "key") = true /\ utf8_valid (bs "field") = true) /\
  command_try_from (Array [BulkString (bs "get"); BulkString (bs "key")]) = Ok (CmdGet (bs "key")) /\
  command_try_from (Array [BulkString (bs "set"); BulkString (bs "key"); Integer 1])
    = Ok (CmdSet (bs "key") (Integer 1)) /\
  command_try_from (Array [BulkString (bs "hget"); BulkString (bs "key"); BulkString (bs "field")])
    = Ok (CmdHGet (bs "key") (bs "field")) /\
  command_try_from (Array [BulkString (bs "hset"); BulkString (bs "key"); BulkString (bs "field");
                           Integer 1])
    = Ok (CmdHSet (bs "key") (bs "field") (Integer 1)) /\
  command_try_from (Array [BulkString (bs "hgetall"); BulkString (bs "key")])
    = Ok (CmdHGetAll (bs "key") false).
Proof.
  assert (H1 : utf8_valid (bs "key") = true) by reflexivity.
  assert (H2 : utf8_valid (bs "field") = true) by reflexivity.
  split; [split; [exact H1|exact H2]|exact (commands_parse _ _ (Integer 1) H1 H2)].
Defined.

Lemma commands_wrong_arity_witness :
  (In ("hset", 3)%string command_arity /\ length [BulkString (bs "key")] <> 3) /\
  command_try_from (Array (BulkString (bs "hset") :: [BulkString (bs "key")])) = Err InvalidArguments.
Proof.
  assert (H1 : In ("hset", 3)%string command_arity) by (right; right; right; left; reflexivity).
  assert (H2 : length [BulkString (bs "key")] <> 3) by discriminate.
  split; [split; [exact H1|exact H2]|exact (commands_wrong_arity _ _ _ H1 H2)].
Defined.

Lemma commands_key_not_utf8_witness :
  (In ("get", 1)%string command_arity /\ length (@nil Frame) = 1 - 1 /\ utf8_valid [xff] = false) /\
  command_try_from (Array (BulkString (bs "get") :: BulkString [xff] :: [])) = Err Utf8Error.
Proof.
  assert (H1 : In ("get", 1)%string command_arity) by (left; reflexivity).
  assert (H2 : length (@nil Frame) = 1 - 1) by reflexivity.
  assert (H3 : utf8_valid [xff] = false) by reflexivity.
  split; [split; [exact H1|split; [exact H2|exact H3]]|exact (commands_key_not_utf8 _ _ _ _ H1 H2 H3)].
Defined.

Lemma bulk_array_roundtrip_witness :
  (Forall bulk_ok [bs "get"; bs "key"] /\
   (N.of_nat (length (frame_encode (Array (map BulkString [bs "get"; bs "key"])))) <= usize_max)%N) /\
  decode (fun _ => None) (frame_encode (Array (map BulkString [bs "get"; bs "key"])))
    = Ok (Array (map BulkString [bs "get"; bs "key"])) /\
  expected_length (frame_encode (Array (map BulkString [bs "get"; bs "key"])))
    = Ok (length (frame_encode (Array (map BulkString [bs "get"; bs "key"])))).
Proof.
  assert (H1 : Forall bulk_ok [bs "get"; bs "key"]).
  { repeat constructor; apply no_crlf_of_positions; reflexivity. }
  assert (H2 : (N.of_nat (length (frame_encode (Array (map BulkString [bs "get"; bs "key"]))))
                <= usize_max)%N)
    by (apply N.leb_le; vm_compute; reflexivity).
  split; [split; [exact H1|exact H2]|exact (bulk_array_roundtrip _ _ H1 H2)].
Defined.
